(** * hifi: material classification keys and the render job graph

    A shallow embedding of
    - [libraries/model/src/model/Material.h]: [MaterialKey], [MaterialFilter]
      and the ordering functor [MaterialFilter::Less];
    - [libraries/render/src/render/DrawTask.h]: [Job::Varying], the four
      [Job] models and [ItemMaterialBucketMap].

    - [libraries/physics/src/ObjectMotionState.cpp]: the constructor and the
      setters of the material properties of [ObjectMotionState].

    A [std::bitset<NUM_FLAGS>] is an integer in [0, 2^NUM_FLAGS); its
    operations are the bit operations of [Z].  Calls that the C++ library
    leaves undefined, or answers with [std::out_of_range], yield [None]. *)

From Stdlib Require Import ZArith Lia Bool List Sorting.Sorted SpecFloat.
From stdpp Require Import base option numbers list sorting strings gmap.

Local Open Scope Z_scope.

(* ===================================================================== *)
(** * namespace model                                                     *)
(* ===================================================================== *)

Module model.

(** ** [enum MaterialKey::FlagBit]: an unscoped enum, used as bit positions *)

Definition EMISSIVE_VAL_BIT    : Z := 0.
Definition ALBEDO_VAL_BIT      : Z := 1.
Definition METALLIC_VAL_BIT    : Z := 2.
Definition GLOSS_VAL_BIT       : Z := 3.
Definition TRANSPARENT_VAL_BIT : Z := 4.
Definition EMISSIVE_MAP_BIT    : Z := 5.
Definition ALBEDO_MAP_BIT      : Z := 6.
Definition METALLIC_MAP_BIT    : Z := 7.
Definition GLOSS_MAP_BIT       : Z := 8.
Definition TRANSPARENT_MAP_BIT : Z := 9.
Definition NORMAL_MAP_BIT      : Z := 10.
Definition LIGHTMAP_MAP_BIT    : Z := 11.
Definition NUM_FLAGS           : Z := 12.

(** ** [typedef std::bitset<NUM_FLAGS> Flags] *)

Module Flags.

(** The values a [Flags] object can hold. *)
Definition wf (b : Z) : Prop := 0 <= b < 2 ^ NUM_FLAGS.

(** [bitset(unsigned long long val)]: the low [NUM_FLAGS] bits of [val]. *)
Definition of_ulong (val : Z) : Z := val mod 2 ^ NUM_FLAGS.

(** [pos < size()], for a [size_t] position. *)
Definition in_range (pos : Z) : bool := (0 <=? pos) && (pos <? NUM_FLAGS).

(** [set(pos, value)]: throws [std::out_of_range] when [pos >= size()]. *)
Definition set (b : Z) (pos : Z) (value : bool) : option Z :=
  if in_range pos
  then Some (if value then Z.setbit b pos else Z.clearbit b pos)
  else None.

(** [reset(pos)] is [set(pos, false)]. *)
Definition reset (b : Z) (pos : Z) : option Z := set b pos false.

(** [operator[](pos)] on a const bitset: undefined when [pos >= size()]. *)
Definition at_ (b : Z) (pos : Z) : option bool :=
  if in_range pos then Some (Z.testbit b pos) else None.

(** [operator&] and [operator==]. *)
Definition and (a b : Z) : Z := Z.land a b.
Definition eq (a b : Z) : bool := a =? b.

(** [to_ulong()]: twelve bits always fit, so it never overflows. *)
Definition to_ulong (b : Z) : Z := b.

End Flags.

(** ** The twelve traits

    Each trait has a bit of [FlagBit], a setter and a getter in
    [MaterialKey], a [withX()] in the key builder and a [withX()] and
    [withoutX()] in the filter builder.  [Trait] indexes them, in the order
    of [FlagBit]. *)

Inductive Trait : Set :=
| Emissive | Albedo | Metallic | Gloss | Transparent
| EmissiveMap | AlbedoMap | MetallicMap | GlossMap | TransparentMap
| NormalMap | LightmapMap.

#[global] Instance Trait_eq_dec : EqDecision Trait.
Proof. solve_decision. Defined.

(** The [FlagBit] of a trait. *)
Definition trait_bit (trait : Trait) : Z :=
  match trait with
  | Emissive => EMISSIVE_VAL_BIT
  | Albedo => ALBEDO_VAL_BIT
  | Metallic => METALLIC_VAL_BIT
  | Gloss => GLOSS_VAL_BIT
  | Transparent => TRANSPARENT_VAL_BIT
  | EmissiveMap => EMISSIVE_MAP_BIT
  | AlbedoMap => ALBEDO_MAP_BIT
  | MetallicMap => METALLIC_MAP_BIT
  | GlossMap => GLOSS_MAP_BIT
  | TransparentMap => TRANSPARENT_MAP_BIT
  | NormalMap => NORMAL_MAP_BIT
  | LightmapMap => LIGHTMAP_MAP_BIT
  end.

(** ** [class MaterialKey] *)

Module MaterialKey.

(** [enum MapChannel]; [NUM_MAP_CHANNELS] is itself an enumerator. *)
Inductive MapChannel : Set :=
  | EMISSIVE_MAP
  | ALBEDO_MAP
  | METALLIC_MAP
  | GLOSS_MAP
  | TRANSPARENT_MAP
  | NORMAL_MAP
  | LIGHTMAP_MAP
  | NUM_MAP_CHANNELS.

(** The integer an enumerator converts to. *)
Definition channel_value (c : MapChannel) : Z :=
  match c with
  | EMISSIVE_MAP => 0
  | ALBEDO_MAP => 1
  | METALLIC_MAP => 2
  | GLOSS_MAP => 3
  | TRANSPARENT_MAP => 4
  | NORMAL_MAP => 5
  | LIGHTMAP_MAP => 6
  | NUM_MAP_CHANNELS => 7
  end.

(** A channel "within the declared channel count". *)
Definition channel_in_range (c : MapChannel) : bool :=
  channel_value c <? channel_value NUM_MAP_CHANNELS.

Record t : Set := mk { _flags : Z }.

(** [MaterialKey() : _flags(0)] and [MaterialKey(const Flags&)]. *)
Definition new : t := mk (Flags.of_ulong 0).
Definition of_flags (flags : Z) : t := mk flags.

(** [class MaterialKey::Builder] *)
Module Builder.
Record t : Set := mk { _flags : Z }.

Definition new : t := mk (Flags.of_ulong 0).
Definition build (b : t) : MaterialKey.t := of_flags (_flags b).

(** All twelve [withX()] have this body, at their own bit. *)
Definition with_bit (bit : Z) (b : t) : option t :=
    f ← Flags.set (_flags b) bit true; Some (mk f).

Definition withEmissive := with_bit EMISSIVE_VAL_BIT.
Definition withAlbedo := with_bit ALBEDO_VAL_BIT.
Definition withMetallic := with_bit METALLIC_VAL_BIT.
Definition withGloss := with_bit GLOSS_VAL_BIT.
Definition withTransparent := with_bit TRANSPARENT_VAL_BIT.
Definition withEmissiveMap := with_bit EMISSIVE_MAP_BIT.
Definition withAlbedoMap := with_bit ALBEDO_MAP_BIT.
Definition withMetallicMap := with_bit METALLIC_MAP_BIT.
Definition withGlossMap := with_bit GLOSS_MAP_BIT.
Definition withTransparentMap := with_bit TRANSPARENT_MAP_BIT.
Definition withNormalMap := with_bit NORMAL_MAP_BIT.
Definition withLightmapMap := with_bit LIGHTMAP_MAP_BIT.

(** [Builder().withAlbedo().build()] *)
Definition opaqueAlbedo : option MaterialKey.t :=
    b ← withAlbedo new; Some (build b).
(** The [withX()] of a trait, and a chain of such calls on one builder. *)
Definition with_trait (trait : Trait) (b : t) : option t :=
  match trait with
  | Emissive => withEmissive b
  | Albedo => withAlbedo b
  | Metallic => withMetallic b
  | Gloss => withGloss b
  | Transparent => withTransparent b
  | EmissiveMap => withEmissiveMap b
  | AlbedoMap => withAlbedoMap b
  | MetallicMap => withMetallicMap b
  | GlossMap => withGlossMap b
  | TransparentMap => withTransparentMap b
  | NormalMap => withNormalMap b
  | LightmapMap => withLightmapMap b
  end.

Fixpoint with_traits (traits : list Trait) (b : t) : option t :=
  match traits with
  | [] => Some b
  | trait :: traits' => b' ← with_trait trait b; with_traits traits' b'
  end.
End Builder.

(** [void setX(bool value) { _flags.set(X_BIT, value); }] *)
Definition set_bit (bit : Z) (value : bool) (k : t) : option t :=
  f ← Flags.set (_flags k) bit value; Some (mk f).

(** [bool isX() const { return _flags[X_BIT]; }] *)
Definition is_bit (bit : Z) (k : t) : option bool :=
  Flags.at_ (_flags k) bit.

Definition setEmissive := set_bit EMISSIVE_VAL_BIT.
Definition isEmissive := is_bit EMISSIVE_VAL_BIT.

Definition setEmissiveMap := set_bit EMISSIVE_MAP_BIT.
Definition isEmissiveMap := is_bit EMISSIVE_MAP_BIT.

Definition setAlbedo := set_bit ALBEDO_VAL_BIT.
Definition isAlbedo := is_bit ALBEDO_VAL_BIT.

Definition setAlbedoMap := set_bit ALBEDO_MAP_BIT.
Definition isAlbedoMap := is_bit ALBEDO_MAP_BIT.

Definition setMetallic := set_bit METALLIC_VAL_BIT.
Definition isMetallic := is_bit METALLIC_VAL_BIT.

Definition setMetallicMap := set_bit METALLIC_MAP_BIT.
Definition isMetallicMap := is_bit METALLIC_MAP_BIT.

Definition setGloss := set_bit GLOSS_VAL_BIT.
Definition isGloss := is_bit GLOSS_VAL_BIT.

Definition setGlossMap := set_bit GLOSS_MAP_BIT.
Definition isGlossMap := is_bit GLOSS_MAP_BIT.

Definition setTransparent := set_bit TRANSPARENT_VAL_BIT.
Definition isTransparent := is_bit TRANSPARENT_VAL_BIT.
(** [bool isOpaque() const { return !_flags[TRANSPARENT_VAL_BIT]; }] *)
Definition isOpaque (k : t) : option bool :=
  negb <$> Flags.at_ (_flags k) TRANSPARENT_VAL_BIT.

Definition setTransparentMap := set_bit TRANSPARENT_MAP_BIT.
Definition isTransparentMap := is_bit TRANSPARENT_MAP_BIT.

Definition setNormalMap := set_bit NORMAL_MAP_BIT.
Definition isNormalMap := is_bit NORMAL_MAP_BIT.

Definition setLightmapMap := set_bit LIGHTMAP_MAP_BIT.
Definition isLightmapMap := is_bit LIGHTMAP_MAP_BIT.

(** The bit a channel addresses: [EMISSIVE_MAP_BIT + channel]. *)
Definition channel_bit (channel : MapChannel) : Z :=
  EMISSIVE_MAP_BIT + channel_value channel.

Definition setMapChannel (channel : MapChannel) (value : bool) (k : t)
  : option t :=
  f ← Flags.set (_flags k) (channel_bit channel) value; Some (mk f).

Definition isMapChannel (channel : MapChannel) (k : t) : option bool :=
  Flags.at_ (_flags k) (channel_bit channel).

(** The public member functions callable on a constructed key. *)
Inductive Op : Set :=
  | SetEmissive (value : bool)        | IsEmissive
  | SetEmissiveMap (value : bool)     | IsEmissiveMap
  | SetAlbedo (value : bool)          | IsAlbedo
  | SetAlbedoMap (value : bool)       | IsAlbedoMap
  | SetMetallic (value : bool)        | IsMetallic
  | SetMetallicMap (value : bool)     | IsMetallicMap
  | SetGloss (value : bool)           | IsGloss
  | SetGlossMap (value : bool)        | IsGlossMap
  | SetTransparent (value : bool)     | IsTransparent | IsOpaque
  | SetTransparentMap (value : bool)  | IsTransparentMap
  | SetNormalMap (value : bool)       | IsNormalMap
  | SetLightmapMap (value : bool)     | IsLightmapMap
  | SetMapChannel (channel : MapChannel) (value : bool)
  | IsMapChannel (channel : MapChannel).

(** Whether the member function is declared [const]. *)
Definition is_const (op : Op) : bool :=
  match op with
  | IsEmissive | IsEmissiveMap | IsAlbedo | IsAlbedoMap | IsMetallic
  | IsMetallicMap | IsGloss | IsGlossMap | IsTransparent | IsOpaque
  | IsTransparentMap | IsNormalMap | IsLightmapMap | IsMapChannel _ => true
  | _ => false
  end.

(** One call on the object [k]: the object afterwards, and what the call
    returned ([None] for [void]). *)
Definition call (op : Op) (k : t) : option (t * option bool) :=
  let setter (r : option t) := k' ← r; Some (k', None) in
  let getter (r : option bool) := b ← r; Some (k, Some b) in
  match op with
  | SetEmissive v => setter (setEmissive v k)
  | IsEmissive => getter (isEmissive k)
  | SetEmissiveMap v => setter (setEmissiveMap v k)
  | IsEmissiveMap => getter (isEmissiveMap k)
  | SetAlbedo v => setter (setAlbedo v k)
  | IsAlbedo => getter (isAlbedo k)
  | SetAlbedoMap v => setter (setAlbedoMap v k)
  | IsAlbedoMap => getter (isAlbedoMap k)
  | SetMetallic v => setter (setMetallic v k)
  | IsMetallic => getter (isMetallic k)
  | SetMetallicMap v => setter (setMetallicMap v k)
  | IsMetallicMap => getter (isMetallicMap k)
  | SetGloss v => setter (setGloss v k)
  | IsGloss => getter (isGloss k)
  | SetGlossMap v => setter (setGlossMap v k)
  | IsGlossMap => getter (isGlossMap k)
  | SetTransparent v => setter (setTransparent v k)
  | IsTransparent => getter (isTransparent k)
  | IsOpaque => getter (isOpaque k)
  | SetTransparentMap v => setter (setTransparentMap v k)
  | IsTransparentMap => getter (isTransparentMap k)
  | SetNormalMap v => setter (setNormalMap v k)
  | IsNormalMap => getter (isNormalMap k)
  | SetLightmapMap v => setter (setLightmapMap v k)
  | IsLightmapMap => getter (isLightmapMap k)
  | SetMapChannel c v => setter (setMapChannel c v k)
  | IsMapChannel c => getter (isMapChannel c k)
  end.

(** A sequence of calls on one object, in order. *)
Fixpoint calls (ops : list Op) (k : t) : option t :=
  match ops with
  | [] => Some k
  | op :: ops' => r ← call op k; calls ops' r.1
  end.

(** The position a setter passes to [_flags.set] and the value it passes
    with it; [None] for the const member functions. *)
Definition written (op : Op) : option (Z * bool) :=
  match op with
  | SetEmissive value => Some (EMISSIVE_VAL_BIT, value)
  | SetEmissiveMap value => Some (EMISSIVE_MAP_BIT, value)
  | SetAlbedo value => Some (ALBEDO_VAL_BIT, value)
  | SetAlbedoMap value => Some (ALBEDO_MAP_BIT, value)
  | SetMetallic value => Some (METALLIC_VAL_BIT, value)
  | SetMetallicMap value => Some (METALLIC_MAP_BIT, value)
  | SetGloss value => Some (GLOSS_VAL_BIT, value)
  | SetGlossMap value => Some (GLOSS_MAP_BIT, value)
  | SetTransparent value => Some (TRANSPARENT_VAL_BIT, value)
  | SetTransparentMap value => Some (TRANSPARENT_MAP_BIT, value)
  | SetNormalMap value => Some (NORMAL_MAP_BIT, value)
  | SetLightmapMap value => Some (LIGHTMAP_MAP_BIT, value)
  | SetMapChannel channel value =>
      Some (EMISSIVE_MAP_BIT + channel_value channel, value)
  | _ => None
  end.

(** The setter and the getter of a trait. *)
Definition set_trait (trait : Trait) (value : bool) (k : t) : option t :=
  match trait with
  | Emissive => setEmissive value k
  | Albedo => setAlbedo value k
  | Metallic => setMetallic value k
  | Gloss => setGloss value k
  | Transparent => setTransparent value k
  | EmissiveMap => setEmissiveMap value k
  | AlbedoMap => setAlbedoMap value k
  | MetallicMap => setMetallicMap value k
  | GlossMap => setGlossMap value k
  | TransparentMap => setTransparentMap value k
  | NormalMap => setNormalMap value k
  | LightmapMap => setLightmapMap value k
  end.

Definition is_trait (trait : Trait) (k : t) : option bool :=
  match trait with
  | Emissive => isEmissive k
  | Albedo => isAlbedo k
  | Metallic => isMetallic k
  | Gloss => isGloss k
  | Transparent => isTransparent k
  | EmissiveMap => isEmissiveMap k
  | AlbedoMap => isAlbedoMap k
  | MetallicMap => isMetallicMap k
  | GlossMap => isGlossMap k
  | TransparentMap => isTransparentMap k
  | NormalMap => isNormalMap k
  | LightmapMap => isLightmapMap k
  end.

End MaterialKey.

(** ** [class MaterialFilter] *)

Module MaterialFilter.

Record t : Set := mk { _value : Z; _mask : Z }.

(** A value and a mask that fit the bitset, the value having no bit outside
    the mask: what the builder keeps true of its two bitsets. *)
Definition masked (value mask : Z) : Prop :=
  Flags.wf value /\ Flags.wf mask /\
  forall i, Z.testbit value i = true -> Z.testbit mask i = true.

(** [MaterialFilter(const Flags& value = Flags(0), const Flags& mask = Flags(0))] *)
Definition of_flags (value mask : Z) : t := mk value mask.
Definition new : t := of_flags (Flags.of_ulong 0) (Flags.of_ulong 0).

(** [class MaterialFilter::Builder] *)
Module Builder.
Record t : Set := mk { _value : Z; _mask : Z }.

Definition new : t := mk (Flags.of_ulong 0) (Flags.of_ulong 0).
Definition build (b : t) : MaterialFilter.t :=
  of_flags (_value b) (_mask b).

(** [withoutX() { _value.reset(X_BIT); _mask.set(X_BIT); return *this; }] *)
Definition without_bit (bit : Z) (b : t) : option t :=
  v ← Flags.reset (_value b) bit;
  m ← Flags.set (_mask b) bit true;
  Some (mk v m).

(** [withX() { _value.set(X_BIT); _mask.set(X_BIT); return *this; }] *)
Definition with_bit (bit : Z) (b : t) : option t :=
  v ← Flags.set (_value b) bit true;
  m ← Flags.set (_mask b) bit true;
  Some (mk v m).

Definition withoutEmissive := without_bit EMISSIVE_VAL_BIT.
Definition withEmissive := with_bit EMISSIVE_VAL_BIT.

Definition withoutEmissiveMap := without_bit EMISSIVE_MAP_BIT.
Definition withEmissiveMap := with_bit EMISSIVE_MAP_BIT.

Definition withoutAlbedo := without_bit ALBEDO_VAL_BIT.
Definition withAlbedo := with_bit ALBEDO_VAL_BIT.

Definition withoutAlbedoMap := without_bit ALBEDO_MAP_BIT.
Definition withAlbedoMap := with_bit ALBEDO_MAP_BIT.

Definition withoutMetallic := without_bit METALLIC_VAL_BIT.
Definition withMetallic := with_bit METALLIC_VAL_BIT.

Definition withoutMetallicMap := without_bit METALLIC_MAP_BIT.
Definition withMetallicMap := with_bit METALLIC_MAP_BIT.

Definition withoutGloss := without_bit GLOSS_VAL_BIT.
Definition withGloss := with_bit GLOSS_VAL_BIT.

Definition withoutGlossMap := without_bit GLOSS_MAP_BIT.
Definition withGlossMap := with_bit GLOSS_MAP_BIT.

Definition withoutTransparent := without_bit TRANSPARENT_VAL_BIT.
Definition withTransparent := with_bit TRANSPARENT_VAL_BIT.

Definition withoutTransparentMap := without_bit TRANSPARENT_MAP_BIT.
Definition withTransparentMap := with_bit TRANSPARENT_MAP_BIT.

Definition withoutNormalMap := without_bit NORMAL_MAP_BIT.
Definition withNormalMap := with_bit NORMAL_MAP_BIT.

Definition withoutLightmapMap := without_bit LIGHTMAP_MAP_BIT.
Definition withLightmapMap := with_bit LIGHTMAP_MAP_BIT.

(** [Builder().withAlbedo().withoutTransparent().build()] *)
Definition opaqueAlbedo : option MaterialFilter.t :=
  b ← withAlbedo new; b ← withoutTransparent b; Some (build b).
(** The [withX()] and the [withoutX()] of a trait; a requirement is a trait
    with the presence asked of it, and a chain of calls is a list of them. *)
Definition with_trait (trait : Trait) (b : t) : option t :=
  match trait with
  | Emissive => withEmissive b
  | Albedo => withAlbedo b
  | Metallic => withMetallic b
  | Gloss => withGloss b
  | Transparent => withTransparent b
  | EmissiveMap => withEmissiveMap b
  | AlbedoMap => withAlbedoMap b
  | MetallicMap => withMetallicMap b
  | GlossMap => withGlossMap b
  | TransparentMap => withTransparentMap b
  | NormalMap => withNormalMap b
  | LightmapMap => withLightmapMap b
  end.

Definition without_trait (trait : Trait) (b : t) : option t :=
  match trait with
  | Emissive => withoutEmissive b
  | Albedo => withoutAlbedo b
  | Metallic => withoutMetallic b
  | Gloss => withoutGloss b
  | Transparent => withoutTransparent b
  | EmissiveMap => withoutEmissiveMap b
  | AlbedoMap => withoutAlbedoMap b
  | MetallicMap => withoutMetallicMap b
  | GlossMap => withoutGlossMap b
  | TransparentMap => withoutTransparentMap b
  | NormalMap => withoutNormalMap b
  | LightmapMap => withoutLightmapMap b
  end.

Definition require (r : Trait * bool) (b : t) : option t :=
  if r.2 then with_trait r.1 b else without_trait r.1 b.

Fixpoint requires (rs : list (Trait * bool)) (b : t) : option t :=
  match rs with
  | [] => Some b
  | r :: rs' => b' ← require r b; requires rs' b'
  end.
End Builder.

(** [bool test(const MaterialKey& key) const
      { return (key._flags & _mask) == (_value & _mask); }] *)
Definition test (f : t) (key : MaterialKey.t) : bool :=
  Flags.eq (Flags.and (MaterialKey._flags key) (_mask f))
           (Flags.and (_value f) (_mask f)).

(** [Less::operator()(const MaterialFilter& left, const MaterialFilter& right)] *)
Definition Less (left right : t) : bool :=
  if Flags.to_ulong (_value left) =? Flags.to_ulong (_value right)
  then Flags.to_ulong (_mask left) <? Flags.to_ulong (_mask right)
  else Flags.to_ulong (_value left) <? Flags.to_ulong (_value right).

(** The public functions that take a constructed filter: [test], and [Less]
    with the filter on either side.  All take it by const reference. *)
Inductive Op : Set :=
| Test (key : MaterialKey.t)
| LessThan (other : t)
| GreaterThan (other : t).

(** One call on the object [f]: the object afterwards and the result. *)
Definition call (op : Op) (f : t) : t * bool :=
  match op with
  | Test key => (f, test f key)
  | LessThan other => (f, Less f other)
  | GreaterThan other => (f, Less other f)
  end.

Fixpoint calls (ops : list Op) (f : t) : t :=
  match ops with
  | [] => f
  | op :: ops' => calls ops' (call op f).1
  end.

End MaterialFilter.

End model.

(* ===================================================================== *)
(** * namespace render                                                    *)
(* ===================================================================== *)

Module render.

(** ** [class Job::Varying]

    A [Varying] holds a [std::shared_ptr<Concept>]: null, or the address of
    a [Model<T>] on the free store.  The free store is a finite map from
    addresses to models; copies of a [Varying] hold the same address.
    [Ty] names the payload types of the pipeline, [den T] is the set of
    values of the type named [T]. *)

Module Varying.
Section Varying.
Context {Ty : Type} `{EqDecision Ty} (den : Ty -> Type).

(** [template <class T> class Model : public Concept { Data _data; }] *)
Record Model : Type := mkModel { Data : Ty; _data : den Data }.

(** [_consumerJobs] holds weak references to jobs, here their handles. *)
Record t : Type := mk {
  _concept : option positive;
  _consumerJobs : list positive
}.

(** [Varying() {}] *)
Definition new : t := mk None [].

(** [Varying(const Varying& var): _concept(var._concept) {}] *)
Definition copy (var : t) : t := mk (_concept var) [].

(** [void addJobConsumer(const std::shared_ptr<Job>& job)
      { _consumerJobs.push_back(job); }] *)
Definition addJobConsumer (job : positive) (v : t) : t :=
  mk (_concept v) (_consumerJobs v ++ [job]).

(** [template <class T> Varying(const T& data)
       : _concept(new Job::Varying::Model<T>(data)) {}] *)
Definition of_data (T : Ty) (data : den T) (h : gmap positive Model)
  : t * gmap positive Model :=
  let l := fresh (dom h) in
  (mk (Some l) [], <[l := mkModel T data]> h).

(** [static_cast<Model<T>*>(...)->_data]: defined when the object is a
    [Model<T>], undefined otherwise. *)
Definition cast (T : Ty) (m : Model) : option (den T) :=
  match decide (Data m = T) with
  | left e => Some (eq_rect (Data m) den (_data m) T e)
  | right _ => None
  end.

(** [template <class T> const T& get() const]: the value read through the
    reference. A null [_concept] or another payload type is undefined. *)
Definition get (T : Ty) (v : t) (h : gmap positive Model) : option (den T) :=
  l ← _concept v; m ← h !! l; cast T m.

(** [template <class T> T& edit()]: the reference, as the address of the
    model whose [_data] it designates. *)
Definition edit (T : Ty) (v : t) (h : gmap positive Model) : option positive :=
  l ← _concept v; m ← h !! l; _ ← cast T m; Some l.

(** Reading and assigning through a [T&] obtained from [edit<T>()]. *)
Definition load (T : Ty) (r : positive) (h : gmap positive Model)
  : option (den T) :=
  m ← h !! r; cast T m.

Definition assign (T : Ty) (r : positive) (x : den T) (h : gmap positive Model)
  : gmap positive Model :=
  <[r := mkModel T x]> h.

End Varying.
End Varying.

(** ** The stage functions

    A stage type [T] provides [run] with one of four parameter lists.  The
    contexts are opaque handles; [World] is whatever a stage touches outside
    the job graph.  A reference parameter [T&] or [O&] is passed in and
    returned. *)

Section Stages.
Context {SceneContextPointer RenderContextPointer World : Type}.

Class Run (T : Type) : Type :=
  run : T -> SceneContextPointer -> RenderContextPointer -> World -> T * World.
Class RunI (T I : Type) : Type :=
  runI : T -> SceneContextPointer -> RenderContextPointer -> I -> World
         -> T * World.
Class RunO (T O : Type) : Type :=
  runO : T -> SceneContextPointer -> RenderContextPointer -> O -> World
         -> T * O * World.
Class RunIO (T I O : Type) : Type :=
  runIO : T -> SceneContextPointer -> RenderContextPointer -> I -> O -> World
          -> T * O * World.

(** [jobRun(jobModel, sceneContext, renderContext)
      { jobModel.run(sceneContext, renderContext); }] and its three
    siblings.  For [DrawOpaque] and [DrawTransparent] the header declares
    explicit specialisations of [jobRun], defined elsewhere: for these two
    stage types the specialisation is the [Run] instance. *)
Definition jobRun {T} {R : Run T} (jobModel : T)
    (sceneContext : SceneContextPointer) (renderContext : RenderContextPointer)
    (w : World) : T * World :=
  run jobModel sceneContext renderContext w.

Definition jobRunI {T I} {R : RunI T I} (jobModel : T)
    (sceneContext : SceneContextPointer) (renderContext : RenderContextPointer)
    (input : I) (w : World) : T * World :=
  runI jobModel sceneContext renderContext input w.

Definition jobRunO {T O} {R : RunO T O} (jobModel : T)
    (sceneContext : SceneContextPointer) (renderContext : RenderContextPointer)
    (output : O) (w : World) : T * O * World :=
  runO jobModel sceneContext renderContext output w.

Definition jobRunIO {T I O} {R : RunIO T I O} (jobModel : T)
    (sceneContext : SceneContextPointer) (renderContext : RenderContextPointer)
    (input : I) (output : O) (w : World) : T * O * World :=
  runIO jobModel sceneContext renderContext input output w.

End Stages.

(** [T()]: the value a default constructor produces. *)
Class DefaultCtor (T : Type) : Type := default_ctor : T.

(** ** [class Job] *)

Module Job.
Section Job.
Context {Ty : Type} `{EqDecision Ty} (den : Ty -> Type).
Context {den_default : forall T : Ty, DefaultCtor (den T)}.
Context {SceneContextPointer RenderContextPointer World : Type}.

Abbreviation Run := (@Run SceneContextPointer RenderContextPointer World).
Abbreviation RunI := (@RunI SceneContextPointer RenderContextPointer World).
Abbreviation RunO := (@RunO SceneContextPointer RenderContextPointer World).
Abbreviation RunIO := (@RunIO SceneContextPointer RenderContextPointer World).

(** [class Concept] with its four subclasses [Model<T>], [ModelI<T, I>],
    [ModelO<T, O>] and [ModelIO<T, I, O>]; the constructor is the dynamic
    type the virtual calls dispatch on. *)
Inductive Concept : Type :=
| Model (T : Type) (R : Run T)
    (_name : string) (_data : T)
| ModelI (T : Type) (I : Ty) (R : RunI T (den I))
    (_name : string) (_data : T) (_input : Varying.t)
| ModelO (T : Type) (O : Ty) (R : RunO T (den O))
    (_name : string) (_data : T) (_output : Varying.t)
| ModelIO (T : Type) (I O : Ty) (R : RunIO T (den I) (den O))
    (_name : string) (_data : T) (_input : Varying.t) (_output : Varying.t).

(** The four I/O shapes. *)
Inductive Shape : Set := NoIO | InputOnly | OutputOnly | InputOutput.

Definition shape (c : Concept) : Shape :=
  match c with
  | Model _ _ _ _ => NoIO
  | ModelI _ _ _ _ _ _ => InputOnly
  | ModelO _ _ _ _ _ _ => OutputOnly
  | ModelIO _ _ _ _ _ _ _ _ => InputOutput
  end.

(** [Concept::getName] and [Concept::setName] *)
Definition Concept_getName (c : Concept) : string :=
  match c with
  | Model _ _ n _ | ModelI _ _ _ n _ _ | ModelO _ _ _ n _ _
  | ModelIO _ _ _ _ n _ _ _ => n
  end.


(** [virtual const Varying getInput() const { return Varying(); }],
    overridden by [ModelI] and [ModelIO] with [{ return _input; }]. *)
Definition Concept_getInput (c : Concept) : Varying.t :=
  match c with
  | ModelI _ _ _ _ _ i | ModelIO _ _ _ _ _ _ i _ => Varying.copy i
  | _ => Varying.new
  end.

(** [getOutput], overridden by [ModelO] and [ModelIO]. *)
Definition Concept_getOutput (c : Concept) : Varying.t :=
  match c with
  | ModelO _ _ _ _ _ o | ModelIO _ _ _ _ _ _ _ o => Varying.copy o
  | _ => Varying.new
  end.

(** *** Constructors of the four models *)

(** [Model()], [Model(name)], [Model(data)], [Model(data, name)] *)
Definition Model_new (T : Type) {R : Run T} {D : DefaultCtor T} : Concept :=
  Model T _ EmptyString default_ctor.
Definition Model_of_name (T : Type) {R : Run T} {D : DefaultCtor T} (name : string)
  : Concept :=
  Model T _ name default_ctor.
Definition Model_of_data (T : Type) {R : Run T} (data : T) : Concept :=
  Model T _ EmptyString data.
Definition Model_of_data_name (T : Type) {R : Run T} (data : T) (name : string)
  : Concept :=
  Model T _ name data.

(** [ModelI(const Varying& input)], [ModelI(input, name)], [ModelI(Data data)] *)
Definition ModelI_of_input (T : Type) (I : Ty) {R : RunI T (den I)} {D : DefaultCtor T}
    (input : Varying.t) : Concept :=
  ModelI T I _ EmptyString default_ctor (Varying.copy input).
Definition ModelI_of_input_name (T : Type) (I : Ty)
    {R : RunI T (den I)} {D : DefaultCtor T} (input : Varying.t) (name : string)
  : Concept :=
  ModelI T I _ name default_ctor (Varying.copy input).
Definition ModelI_of_data (T : Type) (I : Ty) {R : RunI T (den I)} (data : T)
  : Concept :=
  ModelI T I _ EmptyString data Varying.new.

(** [ModelO() : _output(Output()) {}] and
    [ModelO(Data data): _data(data), _output(Output()) {}] *)
Definition ModelO_new (T : Type) (O : Ty) {R : RunO T (den O)} {D : DefaultCtor T}
    (h : gmap positive (Varying.Model den))
  : Concept * gmap positive (Varying.Model den) :=
  let '(output, h') := Varying.of_data den O default_ctor h in
  (ModelO T O _ EmptyString default_ctor output, h').
Definition ModelO_of_data (T : Type) (O : Ty) {R : RunO T (den O)} (data : T)
    (h : gmap positive (Varying.Model den))
  : Concept * gmap positive (Varying.Model den) :=
  let '(output, h') := Varying.of_data den O default_ctor h in
  (ModelO T O _ EmptyString data output, h').

(** [ModelIO(const Varying& input): _input(input), _output(Output()) {}] and
    [ModelIO(Data data, Output output): _data(data), _output(output) {}] *)
Definition ModelIO_of_input (T : Type) (I O : Ty)
    {R : RunIO T (den I) (den O)} {D : DefaultCtor T} (input : Varying.t)
    (h : gmap positive (Varying.Model den))
  : Concept * gmap positive (Varying.Model den) :=
  let '(output, h') := Varying.of_data den O default_ctor h in
  (ModelIO T I O _ EmptyString default_ctor (Varying.copy input) output, h').
Definition ModelIO_of_data_output (T : Type) (I O : Ty)
    {R : RunIO T (den I) (den O)} (data : T) (output : den O)
    (h : gmap positive (Varying.Model den))
  : Concept * gmap positive (Varying.Model den) :=
  let '(output', h') := Varying.of_data den O output h in
  (ModelIO T I O _ EmptyString data Varying.new output', h').

(** [void setInput(const Varying& input) { _input = input; }] of [ModelIO];
    the other models have no such member. *)
Definition ModelIO_setInput (input : Varying.t) (c : Concept) : option Concept :=
  match c with
  | ModelIO T Ti To R n d _ o => Some (ModelIO T Ti To R n d input o)
  | _ => None
  end.

(** *** [virtual void run(sceneContext, renderContext)]

    The state is the free store of the varyings and the world outside.  A
    stage is handed the values its references designate and hands back what
    it leaves in them.  For [ModelIO] this describes the call when [_input]
    and [_output] hold different slots; when they hold one slot the stage
    sees through its input what it writes to its output, which a function of
    two values does not say, and what is stated of the values an
    input+output job computes assumes different slots. *)
Definition Concept_run (c : Concept)
    (sceneContext : SceneContextPointer) (renderContext : RenderContextPointer)
    (st : gmap positive (Varying.Model den) * World)
  : option (Concept * (gmap positive (Varying.Model den) * World)) :=
  let '(h, w) := st in
  match c with
  | Model T R n data =>
      let '(data', w') := jobRun data sceneContext renderContext w in
      Some (Model T R n data', (h, w'))
  | ModelI T Ti R n data input =>
      i ← Varying.get den Ti input h;
      let '(data', w') := jobRunI data sceneContext renderContext i w in
      Some (ModelI T Ti R n data' input, (h, w'))
  | ModelO T To R n data output =>
      r ← Varying.edit den To output h;
      o ← Varying.load den To r h;
      let '(data', o', w') := jobRunO data sceneContext renderContext o w in
      Some (ModelO T To R n data' output, (Varying.assign den To r o' h, w'))
  | ModelIO T Ti To R n data input output =>
      i ← Varying.get den Ti input h;
      r ← Varying.edit den To output h;
      o ← Varying.load den To r h;
      let '(data', o', w') :=
        jobRunIO data sceneContext renderContext i o w in
      Some (ModelIO T Ti To R n data' input output,
            (Varying.assign den To r o' h, w'))
  end.

(** [std::shared_ptr<Concept> _concept] *)
Record t : Type := mk { _concept : option Concept }.


(** [getName], [getInput], [getOutput] dereference [_concept]. *)
Definition getName (j : t) : option string := Concept_getName <$> _concept j.
Definition getInput (j : t) : option Varying.t :=
  Concept_getInput <$> _concept j.
Definition getOutput (j : t) : option Varying.t :=
  Concept_getOutput <$> _concept j.

(** [void run(sceneContext, renderContext)
      { if (_concept) { _concept->run(sceneContext, renderContext); } }] *)
Definition run (j : t)
    (sceneContext : SceneContextPointer) (renderContext : RenderContextPointer)
    (st : gmap positive (Varying.Model den) * World)
  : option (t * (gmap positive (Varying.Model den) * World)) :=
  match _concept j with
  | Some c =>
      r ← Concept_run c sceneContext renderContext st;
      Some (mk (Some r.1), r.2)
  | None => Some (j, st)
  end.

(** The job run once per frame, for a sequence of frames. *)
Fixpoint runs (j : t)
    (frames : list (SceneContextPointer * RenderContextPointer))
    (st : gmap positive (Varying.Model den) * World)
  : option (t * (gmap positive (Varying.Model den) * World)) :=
  match frames with
  | [] => Some (j, st)
  | (sceneContext, renderContext) :: frames' =>
      r ← run j sceneContext renderContext st; runs r.1 frames' r.2
  end.

End Job.
End Job.

(** ** [class ItemMaterialBucketMap
        : public std::map<model::MaterialFilter, ItemIDs, model::MaterialFilter::Less>]

    A [std::map] is the sequence of entries its iterators enumerate from
    [begin()] to [end()].  Two keys are equivalent when neither is [Less]
    than the other; the map holds at most one entry per class of equivalent
    keys, and an entry's key is const. *)

Module ItemMaterialBucketMap.
Import model.
Section ItemMaterialBucketMap.
Context {ItemID : Type}.

(** [ItemMaterialBucketMap() {}] *)
Definition new : list (MaterialFilter.t * list ItemID) := [].

(** Equivalence of keys under the comparison object. *)
Definition equiv (a b : MaterialFilter.t) : bool :=
  negb (MaterialFilter.Less a b) && negb (MaterialFilter.Less b a).

(** [std::map::find] *)
Fixpoint find (f : MaterialFilter.t) (m : list (MaterialFilter.t * list ItemID))
  : option (list ItemID) :=
  match m with
  | [] => None
  | (g, ids) :: m' => if equiv f g then Some ids else find f m'
  end.

(** [std::map::insert(value)]: the entry goes where the comparison puts it;
    nothing changes when an equivalent key is present. *)
Fixpoint std_insert (f : MaterialFilter.t) (ids : list ItemID)
    (m : list (MaterialFilter.t * list ItemID))
  : list (MaterialFilter.t * list ItemID) :=
  match m with
  | [] => [(f, ids)]
  | (g, ids') :: m' =>
      if MaterialFilter.Less f g then (f, ids) :: (g, ids') :: m'
      else if MaterialFilter.Less g f then (g, ids') :: std_insert f ids m'
      else (g, ids') :: m'
  end.

(** [std::map::operator[](key)]: inserts an empty list when the key is
    absent. *)
Definition subscript (f : MaterialFilter.t)
    (m : list (MaterialFilter.t * list ItemID))
  : list (MaterialFilter.t * list ItemID) :=
  std_insert f [] m.

(** [std::map::erase(key)] *)
Definition erase (f : MaterialFilter.t)
    (m : list (MaterialFilter.t * list ItemID))
  : list (MaterialFilter.t * list ItemID) :=
  filter (fun e => negb (equiv f e.1)) m.

(** [std::map::value_comp()]: entries compared by their keys. *)
Definition value_comp (a b : MaterialFilter.t * list ItemID) : bool :=
  MaterialFilter.Less a.1 b.1.

(** The maps a program can build: from the empty map by [insert] (and so
    [operator[]]), by [erase], and by writing to mapped values through
    references and iterators, which leaves every key as it is. *)
Inductive reachable : list (MaterialFilter.t * list ItemID) -> Prop :=
| reachable_new : reachable new
| reachable_insert f ids m : reachable m -> reachable (std_insert f ids m)
| reachable_erase f m : reachable m -> reachable (erase f m)
| reachable_write m m' : reachable m -> m'.*1 = m.*1 -> reachable m'.

(** Modelled from the spec: the body of [ItemMaterialBucketMap::insert(id, key)],
    which is declared here and defined outside the source at hand.  It scans
    the buckets in the map's order and appends [id] to the first bucket whose
    filter matches [key]; an item that matches no bucket is dropped. *)
Fixpoint insert (id : ItemID) (key : MaterialKey.t)
    (m : list (MaterialFilter.t * list ItemID))
  : list (MaterialFilter.t * list ItemID) :=
  match m with
  | [] => []
  | (g, ids) :: m' =>
      if MaterialFilter.test g key then (g, ids ++ [id]) :: m'
      else (g, ids) :: insert id key m'
  end.

(** Modelled from the spec: the body of [allocateStandardMaterialBuckets()],
    defined outside the source at hand.  It pre-inserts the canonical filters,
    given here as [standard], with empty lists. *)
Definition allocateStandardMaterialBuckets (standard : list MaterialFilter.t)
    (m : list (MaterialFilter.t * list ItemID))
  : list (MaterialFilter.t * list ItemID) :=
  foldl (fun m f => subscript f m) m standard.

End ItemMaterialBucketMap.
End ItemMaterialBucketMap.

(** ** A small pipeline over integer payloads, used to exercise the model:
    an output-only stage, an input+output stage, an input-only stage and a
    stage without slots.  The world is the list of submitted values. *)

Module Sample.

Inductive PayloadTy : Set := TInt | TList.

#[global] Instance PayloadTy_eq_dec : EqDecision PayloadTy.
Proof. solve_decision. Defined.

Definition den (T : PayloadTy) : Type :=
  match T with TInt => Z | TList => list Z end.

#[global] Instance den_default (T : PayloadTy) : DefaultCtor (den T) :=
  match T with TInt => 0 | TList => [] end.

#[global] Instance Z_default : DefaultCtor Z := 0.

(** Produces the two values that follow its counter. *)
Definition fetch : @RunO unit unit (list Z) Z (list Z) :=
  fun d _ _ _ w => (d + 2, [d; d + 1], w).

(** Keeps the inputs above its threshold. *)
Definition cull : @RunIO unit unit (list Z) Z (list Z) (list Z) :=
  fun d _ _ i _ w => (d, List.filter (fun x => d <? x) i, w).


(** Clears the world. *)
Definition reset : @Run unit unit (list Z) Z :=
  fun d _ _ _ => (d, []).

End Sample.

End render.

(* ===================================================================== *)
(** * ObjectMotionState.cpp                                               *)
(* ===================================================================== *)

Module physics.

(** A [float] is an IEEE 754 binary32 number: a [spec_float], valid for
    precision 24 and maximal exponent 128.  On floats [a < b] is
    [SFltb a b] and [a > b] is [SFltb b a]; both are false when either
    side is NaN. *)
Definition float_valid (x : spec_float) : bool := valid_binary 24 128 x.

(** [fabsf] *)
Definition fabsf (x : spec_float) : spec_float := SFabs x.

(** Bullet's [btMin(a, b) { return a < b ? a : b; }] and
    [btMax(a, b) { return a > b ? a : b; }]. *)
Definition btMin (a b : spec_float) : spec_float := if SFltb a b then a else b.
Definition btMax (a b : spec_float) : spec_float := if SFltb b a then a else b.

(** The float literals of the file; a mantissa of 24 bits and its exponent. *)
Definition f0 : spec_float := S754_zero false.                    (* 0.0f *)
Definition f1 : spec_float := S754_finite false 8388608 (-23).    (* 1.0f *)

Definition MIN_DENSITY : spec_float := S754_finite false 13107200 (-16). (* 200.0f *)
Definition DEFAULT_DENSITY : spec_float := S754_finite false 16384000 (-14). (* 1000.0f *)
Definition MAX_DENSITY : spec_float := S754_finite false 10240000 (-9).  (* 20000.0f *)

Definition MIN_VOLUME : spec_float := S754_finite false 8589935 (-33).   (* 0.001f *)
Definition DEFAULT_VOLUME : spec_float := f1.                            (* 1.0f *)
Definition MAX_VOLUME : spec_float := S754_finite false 16000000 (-4).   (* 1000000.0f *)

Definition DEFAULT_FRICTION : spec_float := S754_finite false 8388608 (-24). (* 0.5f *)
Definition MAX_FRICTION : spec_float := S754_finite false 10485760 (-20).    (* 10.0f *)

Definition DEFAULT_RESTITUTION : spec_float := f0.                       (* 0.0f *)

(** [lo <= x && x <= hi] *)
Definition between (lo hi x : spec_float) : bool := SFleb lo x && SFleb x hi.

Module ObjectMotionState.

(** The six material properties, the members that the setters of this file
    write.  The class has further members, declared in a header outside the
    source at hand; no setter below reads or writes them. *)
Record t : Set := mk {
  _density : spec_float;
  _volume : spec_float;
  _friction : spec_float;
  _restitution : spec_float;
  _linearDamping : spec_float;
  _angularDamping : spec_float
}.

(** [ObjectMotionState() : _density(DEFAULT_DENSITY), _volume(DEFAULT_VOLUME),
      _friction(DEFAULT_FRICTION), _restitution(DEFAULT_RESTITUTION),
      _linearDamping(0.0f), _angularDamping(0.0f), ...] *)
Definition new : t :=
  mk DEFAULT_DENSITY DEFAULT_VOLUME DEFAULT_FRICTION DEFAULT_RESTITUTION f0 f0.

(** [_density = btMax(btMin(fabsf(density), MAX_DENSITY), MIN_DENSITY);] *)
Definition setDensity (density : spec_float) (s : t) : t :=
  mk (btMax (btMin (fabsf density) MAX_DENSITY) MIN_DENSITY)
     (_volume s) (_friction s) (_restitution s)
     (_linearDamping s) (_angularDamping s).

(** [_friction = btMax(btMin(fabsf(friction), MAX_FRICTION), 0.0f);] *)
Definition setFriction (friction : spec_float) (s : t) : t :=
  mk (_density s) (_volume s)
     (btMax (btMin (fabsf friction) MAX_FRICTION) f0)
     (_restitution s) (_linearDamping s) (_angularDamping s).

(** [_restitution = btMax(btMin(fabsf(restitution), 1.0f), 0.0f);] *)
Definition setRestitution (restitution : spec_float) (s : t) : t :=
  mk (_density s) (_volume s) (_friction s)
     (btMax (btMin (fabsf restitution) f1) f0)
     (_linearDamping s) (_angularDamping s).

(** [_linearDamping = btMax(btMin(fabsf(damping), 1.0f), 0.0f);] *)
Definition setLinearDamping (damping : spec_float) (s : t) : t :=
  mk (_density s) (_volume s) (_friction s) (_restitution s)
     (btMax (btMin (fabsf damping) f1) f0)
     (_angularDamping s).

(** [_angularDamping = btMax(btMin(fabsf(damping), 1.0f), 0.0f);] *)
Definition setAngularDamping (damping : spec_float) (s : t) : t :=
  mk (_density s) (_volume s) (_friction s) (_restitution s)
     (_linearDamping s)
     (btMax (btMin (fabsf damping) f1) f0).

(** [_volume = btMax(btMin(fabsf(volume), MAX_VOLUME), MIN_VOLUME);] *)
Definition setVolume (volume : spec_float) (s : t) : t :=
  mk (_density s)
     (btMax (btMin (fabsf volume) MAX_VOLUME) MIN_VOLUME)
     (_friction s) (_restitution s) (_linearDamping s) (_angularDamping s).

(** The six setters as calls on one object, and a sequence of calls. *)
Inductive Op : Set :=
| SetDensity (density : spec_float)
| SetFriction (friction : spec_float)
| SetRestitution (restitution : spec_float)
| SetLinearDamping (damping : spec_float)
| SetAngularDamping (damping : spec_float)
| SetVolume (volume : spec_float).

Definition call (op : Op) (s : t) : t :=
  match op with
  | SetDensity x => setDensity x s
  | SetFriction x => setFriction x s
  | SetRestitution x => setRestitution x s
  | SetLinearDamping x => setLinearDamping x s
  | SetAngularDamping x => setAngularDamping x s
  | SetVolume x => setVolume x s
  end.

Fixpoint calls (ops : list Op) (s : t) : t :=
  match ops with
  | [] => s
  | op :: ops' => calls ops' (call op s)
  end.

(** The ranges of the six properties. *)
Definition in_ranges (s : t) : bool :=
  between MIN_DENSITY MAX_DENSITY (_density s)
  && between MIN_VOLUME MAX_VOLUME (_volume s)
  && between f0 MAX_FRICTION (_friction s)
  && between f0 f1 (_restitution s)
  && between f0 f1 (_linearDamping s)
  && between f0 f1 (_angularDamping s).

End ObjectMotionState.

End physics.

(* ===================================================================== *)
(** * Properties of [std::bitset<NUM_FLAGS>]                              *)
(* ===================================================================== *)

Section FlagsFacts.
Import model.

Lemma Flags_in_range_spec pos :
  Flags.in_range pos = true <-> 0 <= pos < NUM_FLAGS.
Proof. unfold Flags.in_range. rewrite andb_true_iff. lia. Qed.

Lemma Flags_in_range_false pos :
  Flags.in_range pos = false <-> pos < 0 \/ NUM_FLAGS <= pos.
Proof.
  rewrite <- not_true_iff_false, Flags_in_range_spec. lia.
Qed.

(** A value fits the bitset exactly when it is non-negative and has no bit
    at position [NUM_FLAGS] or above. *)
Lemma Flags_wf_bits b :
  Flags.wf b <->
  0 <= b /\ forall i, NUM_FLAGS <= i -> Z.testbit b i = false.
Proof.
  unfold Flags.wf. split.
  - intros [Hlo Hhi]. split; [exact Hlo|].
    apply Z.bounded_iff_bits_nonneg; [unfold NUM_FLAGS; lia | exact Hlo | exact Hhi].
  - intros [Hlo Hbits]. split; [exact Hlo|].
    apply Z.bounded_iff_bits_nonneg; [unfold NUM_FLAGS; lia | exact Hlo | exact Hbits].
Qed.

Lemma Flags_of_ulong_wf val : Flags.wf (Flags.of_ulong val).
Proof.
  unfold Flags.wf, Flags.of_ulong. apply Z.mod_pos_bound.
  unfold NUM_FLAGS. lia.
Qed.

(** [set] succeeds exactly on the positions of the bitset. *)
Lemma Flags_set_Some b pos value :
  Flags.in_range pos = true ->
  Flags.set b pos value
  = Some (if value then Z.setbit b pos else Z.clearbit b pos).
Proof. intros Hr. unfold Flags.set. now rewrite Hr. Qed.

Lemma Flags_set_None b pos value :
  Flags.in_range pos = false -> Flags.set b pos value = None.
Proof. intros Hr. unfold Flags.set. now rewrite Hr. Qed.

(** The bits after a successful [set(pos, value)]. *)
Lemma Flags_set_testbit b pos value b' :
  Flags.set b pos value = Some b' ->
  forall i, Z.testbit b' i = if i =? pos then value else Z.testbit b i.
Proof.
  unfold Flags.set. destruct (Flags.in_range pos) eqn:Hr; [|discriminate].
  apply Flags_in_range_spec in Hr. intros [= <-] i.
  rewrite (Z.eqb_sym i pos). destruct value.
  - rewrite Z.setbit_eqb by lia. now destruct (pos =? i).
  - rewrite Z.clearbit_eqb. destruct (pos =? i); simpl;
      [apply andb_false_r | apply andb_true_r].
Qed.

(** [set] keeps the value inside the bitset. *)
Lemma Flags_set_wf b pos value b' :
  Flags.wf b -> Flags.set b pos value = Some b' -> Flags.wf b'.
Proof.
  intros Hwf Hset. pose proof (Flags_set_testbit _ _ _ _ Hset) as Hbits.
  unfold Flags.set in Hset.
  destruct (Flags.in_range pos) eqn:Hr; [|discriminate].
  apply Flags_in_range_spec in Hr.
  apply Flags_wf_bits in Hwf as [Hlo Hhi]. apply Flags_wf_bits. split.
  - injection Hset as <-. destruct value.
    + unfold Z.setbit. apply Z.lor_nonneg. split; [exact Hlo|].
      apply Z.shiftl_nonneg. lia.
    + unfold Z.clearbit. apply Z.ldiff_nonneg. now left.
  - intros i Hi. rewrite Hbits.
    destruct (Z.eqb_spec i pos) as [->|_]; [lia | now apply Hhi].
Qed.

Lemma Flags_at_Some b pos :
  Flags.in_range pos = true -> Flags.at_ b pos = Some (Z.testbit b pos).
Proof. intros Hr. unfold Flags.at_. now rewrite Hr. Qed.

End FlagsFacts.

(* ===================================================================== *)
(** * [MaterialKey] and [MaterialFilter]                                  *)
(* ===================================================================== *)

Section MaterialFacts.
Import model.

(** The named bits are positions of the bitset. *)
Lemma set_bit_testbit bit value k k' :
  MaterialKey.set_bit bit value k = Some k' ->
  Flags.in_range bit = true /\
  forall i, Z.testbit (MaterialKey._flags k') i
            = if i =? bit then value else Z.testbit (MaterialKey._flags k) i.
Proof.
  unfold MaterialKey.set_bit. intros Hset.
  destruct (Flags.set (MaterialKey._flags k) bit value) as [f|] eqn:Hf;
    [|discriminate].
  injection Hset as <-. split.
  - unfold Flags.set in Hf. now destruct (Flags.in_range bit).
  - exact (Flags_set_testbit _ _ _ _ Hf).
Qed.

Lemma test_eq (f : MaterialFilter.t) (k : MaterialKey.t) :
  MaterialFilter.test f k = true <->
  Z.land (MaterialKey._flags k) (MaterialFilter._mask f)
  = Z.land (MaterialFilter._value f) (MaterialFilter._mask f).
Proof. unfold MaterialFilter.test, Flags.eq, Flags.and. apply Z.eqb_eq. Qed.

Lemma test_bits (f : MaterialFilter.t) (k : MaterialKey.t) :
  Flags.wf (MaterialFilter._mask f) ->
  MaterialFilter.test f k = true <->
  forall i, 0 <= i < NUM_FLAGS ->
    Z.testbit (MaterialFilter._mask f) i = true ->
    Z.testbit (MaterialKey._flags k) i = Z.testbit (MaterialFilter._value f) i.
Proof.
  intros Hwf. apply Flags_wf_bits in Hwf as [_ Hhi].
  rewrite test_eq, <- Z.bits_inj_iff'. split.
  - intros Hland i Hi Hm. specialize (Hland i (proj1 Hi)).
    rewrite !Z.land_spec, Hm, !andb_true_r in Hland. exact Hland.
  - intros Hbits i Hi. rewrite !Z.land_spec.
    destruct (Z.testbit (MaterialFilter._mask f) i) eqn:Hm.
    + rewrite !andb_true_r. apply Hbits; [|exact Hm].
      split; [exact Hi|]. destruct (Z.ltb_spec i NUM_FLAGS) as [Hlt|Hge];
        [exact Hlt|]. rewrite (Hhi i Hge) in Hm. discriminate.
    + now rewrite !andb_false_r.
Qed.

Lemma opaqueAlbedo_filter :
  MaterialFilter.Builder.opaqueAlbedo = Some (MaterialFilter.mk 2 18).
Proof. reflexivity. Qed.

(** The mask of the opaque-albedo filter constrains the albedo and the
    transparency bit, and nothing else. *)
Lemma opaqueAlbedo_mask_bits i :
  0 <= i < NUM_FLAGS -> Z.testbit 18 i = true ->
  i = ALBEDO_VAL_BIT \/ i = TRANSPARENT_VAL_BIT.
Proof.
  unfold NUM_FLAGS, ALBEDO_VAL_BIT, TRANSPARENT_VAL_BIT. intros Hi Hb.
  assert (i = 0 \/ i = 1 \/ i = 2 \/ i = 3 \/ i = 4 \/ i = 5 \/ i = 6 \/
          i = 7 \/ i = 8 \/ i = 9 \/ i = 10 \/ i = 11) as Hcases by lia.
  repeat (destruct Hcases as [-> | Hcases]); try subst i;
    first [discriminate Hb | lia].
Qed.

(** C1: [f.test(k)] holds exactly when [(k._flags & f._mask)] equals
    [(f._value & f._mask)], that is when the key agrees with the value on
    every bit of the mask, the other bits being free; the opaque-albedo
    filter accepts a key with albedo and without transparency, and rejects
    that key once its transparency bit is set. *)
Theorem MaterialFilter_test_spec (f : MaterialFilter.t) (k : MaterialKey.t) :
  (MaterialFilter.test f k = true <->
   Z.land (MaterialKey._flags k) (MaterialFilter._mask f)
   = Z.land (MaterialFilter._value f) (MaterialFilter._mask f))
  /\ (Flags.wf (MaterialFilter._mask f) ->
      (MaterialFilter.test f k = true <->
       forall i, 0 <= i < NUM_FLAGS ->
         Z.testbit (MaterialFilter._mask f) i = true ->
         Z.testbit (MaterialKey._flags k) i
         = Z.testbit (MaterialFilter._value f) i))
  /\ (exists fOpaque,
        MaterialFilter.Builder.opaqueAlbedo = Some fOpaque /\
        (MaterialKey.isAlbedo k = Some true ->
         MaterialKey.isTransparent k = Some false ->
         MaterialFilter.test fOpaque k = true /\
         exists k', MaterialKey.setTransparent true k = Some k' /\
                    MaterialFilter.test fOpaque k' = false)).
Proof.
  split; [apply test_eq|]. split; [apply test_bits|].
  exists (MaterialFilter.mk 2 18). split; [reflexivity|].
  intros Halb Htr.
  unfold MaterialKey.isAlbedo, MaterialKey.is_bit in Halb.
  unfold MaterialKey.isTransparent, MaterialKey.is_bit in Htr.
  rewrite Flags_at_Some in Halb, Htr by reflexivity.
  apply (inj Some) in Halb, Htr.
  assert (Flags.wf 18) as Hwf by (unfold Flags.wf, NUM_FLAGS; lia).
  split.
  - apply test_bits; [exact Hwf|]. cbn [MaterialFilter._mask MaterialFilter._value].
    intros i Hi Hm. destruct (opaqueAlbedo_mask_bits i Hi Hm) as [-> | ->].
    + rewrite Halb. reflexivity.
    + rewrite Htr. reflexivity.
  - destruct (MaterialKey.setTransparent true k) as [k'|] eqn:Hset;
      [|discriminate Hset].
    exists k'. split; [reflexivity|].
    apply set_bit_testbit in Hset as [_ Hbits].
    apply not_true_iff_false. intros Htest.
    pose proof (proj1 (test_bits (MaterialFilter.mk 2 18) k' Hwf) Htest
                  TRANSPARENT_VAL_BIT) as Hbit.
    rewrite Hbits in Hbit. cbn in Hbit.
    unfold NUM_FLAGS, TRANSPARENT_VAL_BIT in Hbit.
    assert (true = false) by (apply Hbit; [lia | reflexivity]).
    discriminate.
Qed.

Lemma MaterialFilter_test_spec_witness :
  (MaterialFilter.test (MaterialFilter.mk 2 18) (MaterialKey.mk 2) = true <->
   forall i, 0 <= i < NUM_FLAGS -> Z.testbit 18 i = true ->
     Z.testbit 2 i = Z.testbit 2 i)
  /\ MaterialFilter.test (MaterialFilter.mk 2 18) (MaterialKey.mk 2) = true
  /\ MaterialFilter.test (MaterialFilter.mk 2 18) (MaterialKey.mk 18) = false.
Proof.
  destruct (MaterialFilter_test_spec (MaterialFilter.mk 2 18) (MaterialKey.mk 2))
    as (_ & Hbits & fo & Hfo & Hscenario).
  split.
  - apply Hbits. unfold Flags.wf, NUM_FLAGS. simpl. lia.
  - injection Hfo as <-.
    destruct Hscenario as (Hpass & k' & Hk' & Hfail);
      [reflexivity | reflexivity |].
    injection Hk' as <-. split; [exact Hpass | exact Hfail].
Defined.

(** C10: [isOpaque()] is the negation of [isTransparent()]; exactly one of
    the two holds for every key. *)
Theorem isOpaque_negates_isTransparent (k : MaterialKey.t) :
  MaterialKey.isOpaque k = negb <$> MaterialKey.isTransparent k
  /\ exists b,
       MaterialKey.isTransparent k = Some b /\
       MaterialKey.isOpaque k = Some (negb b) /\
       xorb b (negb b) = true.
Proof.
  split; [reflexivity|].
  exists (Z.testbit (MaterialKey._flags k) TRANSPARENT_VAL_BIT).
  unfold MaterialKey.isOpaque, MaterialKey.isTransparent, MaterialKey.is_bit.
  rewrite Flags_at_Some by reflexivity.
  repeat split. now destruct (Z.testbit _ _).
Qed.

Lemma channel_in_range_spec c :
  MaterialKey.channel_in_range c = true <-> c <> MaterialKey.NUM_MAP_CHANNELS.
Proof. destruct c; cbn; split; congruence. Qed.

Lemma channel_bit_inj c c' :
  MaterialKey.channel_bit c = MaterialKey.channel_bit c' -> c = c'.
Proof.
  unfold MaterialKey.channel_bit. intros Heq.
  assert (MaterialKey.channel_value c = MaterialKey.channel_value c') as Hv
    by lia.
  destruct c, c'; cbn in Hv; congruence.
Qed.

Lemma channel_bit_in_range c :
  Flags.in_range (MaterialKey.channel_bit c) = MaterialKey.channel_in_range c.
Proof. now destruct c. Qed.

(** C6: for a channel [c] within the channel count, [setMapChannel(c, true)]
    makes [isMapChannel(c)] true and changes no flag bit other than bit
    [EMISSIVE_MAP_BIT + c]; no other channel reads differently. *)
Theorem setMapChannel_isMapChannel (k : MaterialKey.t)
    (c : MaterialKey.MapChannel) :
  MaterialKey.channel_in_range c = true ->
  exists k',
    MaterialKey.setMapChannel c true k = Some k' /\
    MaterialKey.isMapChannel c k' = Some true /\
    MaterialKey.channel_bit c = EMISSIVE_MAP_BIT + MaterialKey.channel_value c /\
    (forall i, i <> MaterialKey.channel_bit c ->
       Z.testbit (MaterialKey._flags k') i = Z.testbit (MaterialKey._flags k) i) /\
    (forall c', c' <> c ->
       MaterialKey.isMapChannel c' k' = MaterialKey.isMapChannel c' k) /\
    (Flags.wf (MaterialKey._flags k) -> Flags.wf (MaterialKey._flags k')).
Proof.
  intros Hc. rewrite <- channel_bit_in_range in Hc.
  unfold MaterialKey.setMapChannel, MaterialKey.isMapChannel.
  destruct (Flags.set (MaterialKey._flags k) (MaterialKey.channel_bit c) true)
    as [f|] eqn:Hset.
  2:{ rewrite Flags_set_Some in Hset by exact Hc. discriminate. }
  pose proof (Flags_set_testbit _ _ _ _ Hset) as Hbits.
  exists (MaterialKey.mk f). cbn [mbind option_bind MaterialKey._flags].
  split; [reflexivity|]. split.
  { rewrite Flags_at_Some by exact Hc. rewrite Hbits, Z.eqb_refl. reflexivity. }
  split; [reflexivity|]. split.
  { intros i Hi. rewrite Hbits. now destruct (Z.eqb_spec i (MaterialKey.channel_bit c)). }
  split.
  { intros c' Hc'. unfold Flags.at_.
    destruct (Flags.in_range (MaterialKey.channel_bit c')); [|reflexivity].
    rewrite Hbits.
    destruct (Z.eqb_spec (MaterialKey.channel_bit c') (MaterialKey.channel_bit c))
      as [Heq|_]; [|reflexivity].
    apply channel_bit_inj in Heq. contradiction. }
  intros Hwf. exact (Flags_set_wf _ _ _ _ Hwf Hset).
Qed.

Lemma setMapChannel_isMapChannel_witness :
  exists k',
    MaterialKey.setMapChannel MaterialKey.NORMAL_MAP true MaterialKey.new
    = Some k' /\
    MaterialKey.isMapChannel MaterialKey.NORMAL_MAP k' = Some true.
Proof.
  destruct (setMapChannel_isMapChannel MaterialKey.new MaterialKey.NORMAL_MAP)
    as (k' & Hset & Hget & _); [reflexivity|].
  exists k'. split; [exact Hset | exact Hget].
Defined.

(** C7: every channel within the channel count has the bit
    [EMISSIVE_MAP_BIT + channel], a position below [NUM_FLAGS]; distinct
    channels have distinct bits; [setMapChannel] and [isMapChannel] then
    address a bit of the bitset.  A channel outside the count addresses no
    bit of the bitset. *)
Theorem channel_bit_valid :
  (forall c, MaterialKey.channel_in_range c = true ->
     MaterialKey.channel_bit c = EMISSIVE_MAP_BIT + MaterialKey.channel_value c /\
     0 <= MaterialKey.channel_bit c < NUM_FLAGS /\
     (forall k value,
        exists k', MaterialKey.setMapChannel c value k = Some k' /\
          Z.testbit (MaterialKey._flags k') (MaterialKey.channel_bit c) = value) /\
     (forall k, MaterialKey.isMapChannel c k
                = Some (Z.testbit (MaterialKey._flags k) (MaterialKey.channel_bit c))))
  /\ (forall c c', MaterialKey.channel_in_range c = true ->
        MaterialKey.channel_in_range c' = true ->
        c <> c' -> MaterialKey.channel_bit c <> MaterialKey.channel_bit c')
  /\ (forall c, MaterialKey.channel_in_range c = false ->
        ~ (0 <= MaterialKey.channel_bit c < NUM_FLAGS) /\
        forall k value,
          MaterialKey.setMapChannel c value k = None /\
          MaterialKey.isMapChannel c k = None)
  /\ (MaterialKey.channel_bit MaterialKey.EMISSIVE_MAP = EMISSIVE_MAP_BIT /\
      MaterialKey.channel_bit MaterialKey.ALBEDO_MAP = ALBEDO_MAP_BIT /\
      MaterialKey.channel_bit MaterialKey.METALLIC_MAP = METALLIC_MAP_BIT /\
      MaterialKey.channel_bit MaterialKey.GLOSS_MAP = GLOSS_MAP_BIT /\
      MaterialKey.channel_bit MaterialKey.TRANSPARENT_MAP = TRANSPARENT_MAP_BIT /\
      MaterialKey.channel_bit MaterialKey.NORMAL_MAP = NORMAL_MAP_BIT /\
      MaterialKey.channel_bit MaterialKey.LIGHTMAP_MAP = LIGHTMAP_MAP_BIT).
Proof.
  split; [|split; [|split]].
  - intros c Hc. rewrite <- channel_bit_in_range in Hc.
    split; [reflexivity|]. split; [now apply Flags_in_range_spec|]. split.
    + intros k value. unfold MaterialKey.setMapChannel.
      rewrite Flags_set_Some by exact Hc. eexists. split; [reflexivity|].
      cbn [MaterialKey._flags].
      erewrite Flags_set_testbit by (apply Flags_set_Some; exact Hc).
      now rewrite Z.eqb_refl.
    + intros k. unfold MaterialKey.isMapChannel. now apply Flags_at_Some.
  - intros c c' _ _ Hne Heq. apply Hne. now apply channel_bit_inj.
  - intros c Hc. rewrite <- channel_bit_in_range in Hc. split.
    + rewrite <- Flags_in_range_spec. congruence.
    + intros k value.
      unfold MaterialKey.setMapChannel, MaterialKey.isMapChannel, Flags.at_.
      rewrite Flags_set_None by exact Hc. rewrite Hc. split; reflexivity.
  - repeat split.
Qed.

Lemma channel_bit_valid_witness :
  0 <= MaterialKey.channel_bit MaterialKey.LIGHTMAP_MAP < NUM_FLAGS
  /\ MaterialKey.channel_bit MaterialKey.ALBEDO_MAP
     <> MaterialKey.channel_bit MaterialKey.GLOSS_MAP
  /\ MaterialKey.isMapChannel MaterialKey.NUM_MAP_CHANNELS MaterialKey.new = None.
Proof.
  destruct channel_bit_valid as (Hin & Hinj & Hout & _).
  split; [|split].
  - apply (Hin MaterialKey.LIGHTMAP_MAP). reflexivity.
  - apply Hinj; [reflexivity | reflexivity | discriminate].
  - apply (Hout MaterialKey.NUM_MAP_CHANNELS); [reflexivity | exact true].
Defined.


(** [Less] is the lexicographic order on the pair (value, mask). *)
Lemma Less_lex (a b : MaterialFilter.t) :
  MaterialFilter.Less a b = true <->
  MaterialFilter._value a < MaterialFilter._value b \/
  (MaterialFilter._value a = MaterialFilter._value b /\
   MaterialFilter._mask a < MaterialFilter._mask b).
Proof.
  unfold MaterialFilter.Less, Flags.to_ulong.
  destruct (Z.eqb_spec (MaterialFilter._value a) (MaterialFilter._value b));
    rewrite Z.ltb_lt; lia.
Qed.

Lemma Less_false (a b : MaterialFilter.t) :
  MaterialFilter.Less a b = false <->
  MaterialFilter._value b < MaterialFilter._value a \/
  (MaterialFilter._value a = MaterialFilter._value b /\
   MaterialFilter._mask b <= MaterialFilter._mask a).
Proof. rewrite <- not_true_iff_false, Less_lex. lia. Qed.

Lemma Less_irrefl a : MaterialFilter.Less a a = false.
Proof. apply Less_false. lia. Qed.

Lemma Less_trans a b c :
  MaterialFilter.Less a b = true -> MaterialFilter.Less b c = true ->
  MaterialFilter.Less a c = true.
Proof. rewrite !Less_lex. lia. Qed.

Lemma Less_asym a b :
  MaterialFilter.Less a b = true -> MaterialFilter.Less b a = false.
Proof. rewrite Less_lex, Less_false. lia. Qed.

(** Filters that [Less] cannot tell apart are the same filter. *)
Lemma Less_incomparable_eq a b :
  MaterialFilter.Less a b = false -> MaterialFilter.Less b a = false -> a = b.
Proof.
  rewrite !Less_false. intros Hab Hba. destruct a as [va ma], b as [vb mb].
  cbn in *. f_equal; lia.
Qed.

(** C2: [MaterialFilter::Less] compares the values as unsigned integers and,
    when these are equal, the masks; it is irreflexive and transitive, and
    two filters of which neither is less than the other have the same value
    and the same mask.  The filter (value 0b01, mask 0b01) comes strictly
    before (value 0b10, mask 0b11). *)
Theorem Less_strict_weak_order :
  (forall a b,
     MaterialFilter.Less a b = true <->
     Flags.to_ulong (MaterialFilter._value a)
       < Flags.to_ulong (MaterialFilter._value b) \/
     (Flags.to_ulong (MaterialFilter._value a)
        = Flags.to_ulong (MaterialFilter._value b) /\
      Flags.to_ulong (MaterialFilter._mask a)
        < Flags.to_ulong (MaterialFilter._mask b)))
  /\ (forall a, MaterialFilter.Less a a = false)
  /\ (forall a b c,
        MaterialFilter.Less a b = true -> MaterialFilter.Less b c = true ->
        MaterialFilter.Less a c = true)
  /\ (forall a b,
        MaterialFilter.Less a b = false -> MaterialFilter.Less b a = false ->
        MaterialFilter._value a = MaterialFilter._value b /\
        MaterialFilter._mask a = MaterialFilter._mask b)
  /\ (forall a b c,
        MaterialFilter.Less a b = false -> MaterialFilter.Less b a = false ->
        MaterialFilter.Less b c = false -> MaterialFilter.Less c b = false ->
        MaterialFilter.Less a c = false /\ MaterialFilter.Less c a = false)
  /\ MaterialFilter.Less (MaterialFilter.mk 1 1) (MaterialFilter.mk 2 3) = true
  /\ MaterialFilter.Less (MaterialFilter.mk 2 3) (MaterialFilter.mk 1 1) = false.
Proof.
  split; [exact Less_lex|]. split; [exact Less_irrefl|].
  split; [exact Less_trans|]. split.
  { intros a b Hab Hba. now rewrite (Less_incomparable_eq a b Hab Hba). }
  split; [|split; reflexivity].
  intros a b c Hab Hba Hbc Hcb.
  rewrite (Less_incomparable_eq a b Hab Hba). split; assumption.
Qed.

Lemma Less_strict_weak_order_witness :
  MaterialFilter.Less (MaterialFilter.mk 1 1) (MaterialFilter.mk 2 0) = true
  /\ MaterialFilter._mask (MaterialFilter.mk 2 3)
     = MaterialFilter._mask (MaterialFilter.mk 2 3).
Proof.
  destruct Less_strict_weak_order as (_ & _ & Htrans & Heq & _).
  split.
  - apply (Htrans (MaterialFilter.mk 1 1) (MaterialFilter.mk 1 7)
                  (MaterialFilter.mk 2 0)); reflexivity.
  - apply (Heq (MaterialFilter.mk 2 3) (MaterialFilter.mk 2 3)); reflexivity.
Defined.


(** *** Which public functions change an object *)

(** A const member function of [MaterialKey] leaves the object as it is. *)
Lemma call_const_unchanged op k r :
  MaterialKey.is_const op = true -> MaterialKey.call op k = Some r -> r.1 = k.
Proof.
  destruct op; try discriminate; intros _ Hcall;
    cbv beta iota zeta delta [MaterialKey.call] in Hcall;
    apply bind_Some in Hcall as (b & _ & [= <-]); reflexivity.
Qed.

Lemma calls_const_unchanged ops : forall k k',
  forallb MaterialKey.is_const ops = true ->
  MaterialKey.calls ops k = Some k' -> k' = k.
Proof.
  induction ops as [|op ops IH]; intros k k' Hconst Hcalls.
  - now injection Hcalls as <-.
  - cbn in Hconst. apply andb_true_iff in Hconst as [Hop Hops]. cbn in Hcalls.
    destruct (MaterialKey.call op k) as [r|] eqn:Hcall; [|discriminate].
    cbn in Hcalls. rewrite <- (call_const_unchanged op k r Hop Hcall).
    now apply IH.
Qed.

Lemma filter_calls_unchanged ops : forall f, MaterialFilter.calls ops f = f.
Proof.
  induction ops as [|op ops IH]; intros f; [reflexivity|].
  cbn. rewrite IH. now destruct op.
Qed.

(** C9, on the code: a [MaterialKey] changes after construction.
    [setEmissive(true)] on a default-constructed key turns its flags from 0
    into 1. *)
Lemma MaterialKey_setter_changes_flags :
  MaterialKey.calls [MaterialKey.SetEmissive true] MaterialKey.new
  = Some (MaterialKey.mk 1)
  /\ MaterialKey._flags MaterialKey.new = 0
  /\ MaterialKey._flags (MaterialKey.mk 1) <> MaterialKey._flags MaterialKey.new.
Proof. split; [reflexivity|]. split; [reflexivity|]. discriminate. Qed.

(** A call of [_flags.set] at a position of the bitset, as every setter
    makes it. *)
Lemma set_at_Some bit value k :
  0 <= bit < NUM_FLAGS ->
  exists k',
    (f ← Flags.set (MaterialKey._flags k) bit value; Some (MaterialKey.mk f))
    = Some k' /\
    Z.testbit (MaterialKey._flags k') bit = value /\
    forall i, i <> bit ->
      Z.testbit (MaterialKey._flags k') i = Z.testbit (MaterialKey._flags k) i.
Proof.
  intros Hbit. apply Flags_in_range_spec in Hbit.
  pose proof (Flags_set_Some (MaterialKey._flags k) bit value Hbit) as Hset.
  pose proof (Flags_set_testbit _ _ _ _ Hset) as Hbits.
  rewrite Hset. cbn. eexists. split; [reflexivity|]. cbn. split.
  - now rewrite Hbits, Z.eqb_refl.
  - intros i Hi. rewrite Hbits. now destruct (Z.eqb_spec i bit).
Qed.

(** C9, amended: every sequence of public functions on a [MaterialFilter]
    leaves its value and mask as constructed; on a [MaterialKey] the const
    accessors leave the flags as they are, and each setter, called with
    [value], sets the bit of its own [FlagBit] (for [setMapChannel], bit
    [EMISSIVE_MAP_BIT + channel] of a channel within the channel count) to
    [value] and changes no other bit. *)
Theorem Material_mutability :
  (forall ops f,
     MaterialFilter._value (MaterialFilter.calls ops f) = MaterialFilter._value f /\
     MaterialFilter._mask (MaterialFilter.calls ops f) = MaterialFilter._mask f)
  /\ (forall ops k k',
        forallb MaterialKey.is_const ops = true ->
        MaterialKey.calls ops k = Some k' ->
        MaterialKey._flags k' = MaterialKey._flags k)
  /\ (forall op k bit value,
        MaterialKey.written op = Some (bit, value) ->
        0 <= bit < NUM_FLAGS ->
        exists k',
          MaterialKey.call op k = Some (k', None) /\
          Z.testbit (MaterialKey._flags k') bit = value /\
          forall i, i <> bit ->
            Z.testbit (MaterialKey._flags k') i
            = Z.testbit (MaterialKey._flags k) i)
  /\ (forall op,
        MaterialKey.is_const op = false ->
        exists bit value,
          MaterialKey.written op = Some (bit, value) /\
          ((forall v,
              op <> MaterialKey.SetMapChannel MaterialKey.NUM_MAP_CHANNELS v) ->
           0 <= bit < NUM_FLAGS)).
Proof.
  split; [|split; [|split]].
  - intros ops f. now rewrite filter_calls_unchanged.
  - intros ops k k' Hconst Hcalls.
    now rewrite (calls_const_unchanged ops k k' Hconst Hcalls).
  - intros op k bit value Hw Hbit.
    destruct (set_at_Some bit value k Hbit) as (k' & Hset & Hown & Hother).
    exists k'. split; [|split; [exact Hown | exact Hother]].
    destruct op; try discriminate Hw; injection Hw as <- <-;
      cbv beta iota zeta delta
        [MaterialKey.call MaterialKey.setEmissive MaterialKey.setEmissiveMap
         MaterialKey.setAlbedo MaterialKey.setAlbedoMap
         MaterialKey.setMetallic MaterialKey.setMetallicMap
         MaterialKey.setGloss MaterialKey.setGlossMap
         MaterialKey.setTransparent MaterialKey.setTransparentMap
         MaterialKey.setNormalMap MaterialKey.setLightmapMap
         MaterialKey.setMapChannel MaterialKey.set_bit
         MaterialKey.channel_bit];
      now rewrite Hset.
  - intros op Hop. destruct op; try discriminate Hop;
      (eexists _, _; split; [reflexivity|]); intros Hne;
      try (apply Flags_in_range_spec; reflexivity).
    match goal with
    | |- context [MaterialKey.channel_value ?c] => destruct c
    end; try (apply Flags_in_range_spec; reflexivity).
    exfalso. now eapply Hne.
Qed.

Lemma Material_mutability_witness :
  MaterialKey._flags (MaterialKey.mk 5) = MaterialKey._flags (MaterialKey.mk 5)
  /\ exists k',
       MaterialKey.call (MaterialKey.SetTransparent true) (MaterialKey.mk 5)
       = Some (k', None) /\
       Z.testbit (MaterialKey._flags k') TRANSPARENT_VAL_BIT = true.
Proof.
  destruct Material_mutability as (_ & Hconst & Hset & _). split.
  - apply (Hconst [MaterialKey.IsAlbedo; MaterialKey.IsOpaque;
                   MaterialKey.IsMapChannel MaterialKey.GLOSS_MAP]);
      reflexivity.
  - destruct (Hset (MaterialKey.SetTransparent true) (MaterialKey.mk 5)
                   TRANSPARENT_VAL_BIT true eq_refl)
      as (k' & Hcall & Hbit & _).
    + unfold TRANSPARENT_VAL_BIT, NUM_FLAGS. lia.
    + exists k'. split; [exact Hcall | exact Hbit].
Defined.


End MaterialFacts.

(* ===================================================================== *)
(** * [Job::Varying]                                                      *)
(* ===================================================================== *)

Section VaryingFacts.
Import render.
Context {Ty : Type} `{EqDecision Ty} (den : Ty -> Type).

Lemma cast_mkModel (T : Ty) (x : den T) :
  Varying.cast den T (Varying.mkModel den T x) = Some x.
Proof.
  unfold Varying.cast. cbn.
  destruct (decide (T = T)) as [e|ne]; [|contradiction].
  now rewrite (proof_irrel e eq_refl).
Qed.

(** [edit<T>()] is defined exactly when [get<T>()] is, and designates the
    model the varying points to. *)
Lemma edit_Some (T : Ty) (v : Varying.t) h r :
  Varying.edit den T v h = Some r <->
  Varying._concept v = Some r /\ is_Some (Varying.get den T v h).
Proof.
  unfold Varying.edit, Varying.get. destruct (Varying._concept v) as [l|]; cbn.
  - destruct (h !! l) as [m|]; cbn.
    + destruct (Varying.cast den T m); cbn; split.
      * intros [= <-]. eauto.
      * intros [[= <-] _]. reflexivity.
      * discriminate.
      * intros [_ []]. discriminate.
    + split; [discriminate | intros [_ []]; discriminate].
  - split; [discriminate | intros [? _]; discriminate].
Qed.

Lemma load_edit (T : Ty) (v : Varying.t) h r :
  Varying.edit den T v h = Some r ->
  Varying.load den T r h = Varying.get den T v h.
Proof.
  intros Hedit. apply edit_Some in Hedit as [Hc _].
  unfold Varying.load, Varying.get. now rewrite Hc.
Qed.

(** Reading a slot after an assignment through any varying that holds the
    same address. *)
Lemma get_assign (T : Ty) (b : Varying.t) r (x : den T) h :
  Varying._concept b = Some r ->
  Varying.get den T b (Varying.assign den T r x h) = Some x.
Proof.
  intros Hb. unfold Varying.get, Varying.assign. rewrite Hb. cbn.
  rewrite lookup_insert_eq. cbn. apply cast_mkModel.
Qed.

(** An assignment leaves the other slots alone. *)
Lemma get_assign_ne (T T' : Ty) (b : Varying.t) r (x : den T) h :
  Varying._concept b <> Some r ->
  Varying.get den T' b (Varying.assign den T r x h) = Varying.get den T' b h.
Proof.
  intros Hb. unfold Varying.get, Varying.assign.
  destruct (Varying._concept b) as [l|]; [|reflexivity]. cbn.
  rewrite lookup_insert_ne by congruence. reflexivity.
Qed.

(** A fresh slot holds the value it was constructed from, and the slots that
    existed keep theirs. *)
Lemma get_of_data (T : Ty) (x : den T) h :
  Varying.get den T (Varying.of_data den T x h).1 (Varying.of_data den T x h).2
  = Some x.
Proof.
  unfold Varying.of_data, Varying.get. cbn. rewrite lookup_insert_eq. cbn.
  apply cast_mkModel.
Qed.

Lemma of_data_fresh (T : Ty) (x : den T) (h : gmap positive (Varying.Model den)) l :
  is_Some (h !! l) -> (Varying.of_data den T x h).2 !! l = h !! l.
Proof.
  intros Hl. unfold Varying.of_data. cbn. apply lookup_insert_ne.
  intros <-. apply elem_of_dom in Hl. exact (is_fresh (dom h) Hl).
Qed.

End VaryingFacts.

(* ===================================================================== *)
(** * [Job]                                                               *)
(* ===================================================================== *)

Section JobFacts.
Import render.
Context {Ty : Type} `{EqDecision Ty} (den : Ty -> Type).
Context {den_default : forall T : Ty, DefaultCtor (den T)}.
Context {SceneContextPointer RenderContextPointer World : Type}.

Abbreviation Run := (@Run SceneContextPointer RenderContextPointer World).
Abbreviation RunI := (@RunI SceneContextPointer RenderContextPointer World).
Abbreviation RunO := (@RunO SceneContextPointer RenderContextPointer World).
Abbreviation RunIO := (@RunIO SceneContextPointer RenderContextPointer World).

Implicit Types (h : gmap positive (Varying.Model den)) (w : World).
Implicit Types (sc : SceneContextPointer) (rc : RenderContextPointer).
Implicit Types
  (c : @Job.Concept Ty den SceneContextPointer RenderContextPointer World)
  (j : @Job.t Ty den SceneContextPointer RenderContextPointer World)
  (st : gmap positive (Varying.Model den) * World).

(** *** One [run] per shape *)

Lemma Concept_run_Model T (R : Run T) n (d : T) sc rc h w :
  Job.Concept_run den (Job.Model den T R n d) sc rc (h, w)
  = Some (Job.Model den T R n (run d sc rc w).1, (h, (run d sc rc w).2)).
Proof. cbn. unfold jobRun. now destruct (run d sc rc w). Qed.

Lemma Concept_run_ModelI T Ti (R : RunI T (den Ti)) n (d : T) input sc rc h w :
  Job.Concept_run den (Job.ModelI den T Ti R n d input) sc rc (h, w)
  = i ← Varying.get den Ti input h;
    Some (Job.ModelI den T Ti R n (runI d sc rc i w).1 input,
          (h, (runI d sc rc i w).2)).
Proof.
  cbn. destruct (Varying.get den Ti input h) as [i|]; [|reflexivity]. cbn.
  unfold jobRunI. now destruct (runI d sc rc i w).
Qed.

Lemma Concept_run_ModelO T To (R : RunO T (den To)) n (d : T) output sc rc h w :
  Job.Concept_run den (Job.ModelO den T To R n d output) sc rc (h, w)
  = o ← Varying.get den To output h;
    l ← Varying._concept output;
    Some (Job.ModelO den T To R n (runO d sc rc o w).1.1 output,
          (<[l := Varying.mkModel den To (runO d sc rc o w).1.2]> h,
           (runO d sc rc o w).2)).
Proof.
  cbn. destruct (Varying.edit den To output h) as [r|] eqn:Hedit; cbn.
  - rewrite (load_edit den To output h r Hedit).
    apply edit_Some in Hedit as [Hc [o Ho]]. rewrite Ho, Hc. cbn.
    unfold jobRunO. now destruct (runO d sc rc o w) as [[d' o'] w'].
  - destruct (Varying.get den To output h) as [o|] eqn:Hget; [|reflexivity].
    cbn. destruct (Varying._concept output) as [l|] eqn:Hc; [|reflexivity].
    assert (Varying.edit den To output h = Some l) as Hl
      by (apply edit_Some; rewrite Hget; eauto).
    congruence.
Qed.

Lemma Concept_run_ModelIO T Ti To (R : RunIO T (den Ti) (den To)) n (d : T)
    input output sc rc h w :
  Job.Concept_run den (Job.ModelIO den T Ti To R n d input output) sc rc (h, w)
  = i ← Varying.get den Ti input h;
    o ← Varying.get den To output h;
    l ← Varying._concept output;
    Some (Job.ModelIO den T Ti To R n (runIO d sc rc i o w).1.1 input output,
          (<[l := Varying.mkModel den To (runIO d sc rc i o w).1.2]> h,
           (runIO d sc rc i o w).2)).
Proof.
  cbn. destruct (Varying.get den Ti input h) as [i|]; [|reflexivity]. cbn.
  destruct (Varying.edit den To output h) as [r|] eqn:Hedit; cbn.
  - rewrite (load_edit den To output h r Hedit).
    apply edit_Some in Hedit as [Hc [o Ho]]. rewrite Ho, Hc. cbn.
    unfold jobRunIO. now destruct (runIO d sc rc i o w) as [[d' o'] w'].
  - destruct (Varying.get den To output h) as [o|] eqn:Hget; [|reflexivity].
    cbn. destruct (Varying._concept output) as [l|] eqn:Hc; [|reflexivity].
    assert (Varying.edit den To output h = Some l) as Hl
      by (apply edit_Some; rewrite Hget; eauto).
    congruence.
Qed.

(** *** The shape is fixed *)








(** *** Slots shared between adjacent jobs *)

(** After a writer job ran, its input and its output being different slots,
    its output slot holds what the stage returned. *)
Lemma Concept_run_ModelIO_output T Ti To (R : RunIO T (den Ti) (den To)) n
    (d : T) input output sc rc h w i o :
  Varying.get den Ti input h = Some i ->
  Varying.get den To output h = Some o ->
  Varying._concept input <> Varying._concept output ->
  exists l,
    Varying._concept output = Some l /\
    Job.Concept_run den (Job.ModelIO den T Ti To R n d input output) sc rc (h, w)
    = Some (Job.ModelIO den T Ti To R n (runIO d sc rc i o w).1.1 input output,
            (Varying.assign den To l (runIO d sc rc i o w).1.2 h,
             (runIO d sc rc i o w).2)).
Proof.
  intros Hi Ho _. rewrite Concept_run_ModelIO, Hi, Ho. cbn.
  destruct (Varying._concept output) as [l|] eqn:Hl.
  - exists l. split; reflexivity.
  - unfold Varying.get in Ho. rewrite Hl in Ho. discriminate.
Qed.

(** C5: a value assigned through [edit<O>()] on a varying is what [get<O>()]
    returns on that varying and on every copy of it; so the value an
    input+output stage, reading from another slot, writes to its output
    slot is the value the next stage, whose input is a copy of that varying,
    is run with. *)
Theorem Varying_read_after_write (O : Ty) (a : Varying.t) h r (v : den O) :
  Varying.edit den O a h = Some r ->
  Varying.get den O a (Varying.assign den O r v h) = Some v
  /\ Varying.get den O (Varying.copy a) (Varying.assign den O r v h) = Some v
  /\ (forall b, Varying._concept b = Varying._concept a ->
        Varying.get den O b (Varying.assign den O r v h) = Some v)
  /\ (forall T1 Ti (R1 : RunIO T1 (den Ti) (den O)) n1 (d1 : T1) input
             T2 (R2 : RunI T2 (den O)) n2 (d2 : T2) sc rc w i o,
        Varying.get den Ti input h = Some i ->
        Varying.get den O a h = Some o ->
        Varying._concept input <> Varying._concept a ->
        let stage1 := Job.ModelIO den T1 Ti O R1 n1 d1 input a in
        let written := (runIO d1 sc rc i o w).1.2 in
        exists stage1' h1 w1,
          Job.Concept_run den stage1 sc rc (h, w) = Some (stage1', (h1, w1)) /\
          Varying.get den O (Job.Concept_getOutput den stage1') h1
          = Some written /\
          Job.Concept_run den
            (Job.ModelI den T2 O R2 n2 d2 (Job.Concept_getOutput den stage1'))
            sc rc (h1, w1)
          = Some (Job.ModelI den T2 O R2 n2 (runI d2 sc rc written w1).1
                    (Job.Concept_getOutput den stage1'),
                  (h1, (runI d2 sc rc written w1).2))).
Proof.
  intros Hedit. apply edit_Some in Hedit as [Ha _].
  split; [now apply get_assign|]. split; [now apply get_assign|].
  split; [intros b Hb; apply get_assign; congruence|].
  intros T1 Ti R1 n1 d1 input T2 R2 n2 d2 sc rc w i o Hi Ho Hne stage1 written.
  destruct (Concept_run_ModelIO_output T1 Ti O R1 n1 d1 input a sc rc h w i o
              Hi Ho Hne) as (l & Hl & Hrun).
  subst stage1 written. eexists _, _, _. split; [exact Hrun|].
  assert (Varying.get den O (Varying.copy a)
            (Varying.assign den O l (runIO d1 sc rc i o w).1.2 h)
          = Some (runIO d1 sc rc i o w).1.2) as Hget
    by now apply get_assign.
  split; [exact Hget|].
  rewrite Concept_run_ModelI. cbn [Job.Concept_getOutput].
  now rewrite Hget.
Qed.

(** C8: an output-only job, and an input+output job constructed from its
    input alone, hold a default-constructed value of the output type in
    their output slot from construction on; the slot is fresh, the slots
    that existed keep their contents. *)
Theorem output_default_constructed :
  (forall T (O : Ty) (R : RunO T (den O)) (D : DefaultCtor T) h,
     let r := Job.ModelO_new den T O h in
     Job.shape den r.1 = Job.OutputOnly /\
     Varying.get den O (Job.Concept_getOutput den r.1) r.2 = Some default_ctor /\
     forall l, is_Some (h !! l) -> r.2 !! l = h !! l)
  /\ (forall T (O : Ty) (R : RunO T (den O)) (data : T) h,
        let r := Job.ModelO_of_data den T O data h in
        Job.shape den r.1 = Job.OutputOnly /\
        Varying.get den O (Job.Concept_getOutput den r.1) r.2
        = Some default_ctor /\
        forall l, is_Some (h !! l) -> r.2 !! l = h !! l)
  /\ (forall T (I O : Ty) (R : RunIO T (den I) (den O)) (D : DefaultCtor T)
             (input : Varying.t) h,
        let r := Job.ModelIO_of_input den T I O input h in
        Job.shape den r.1 = Job.InputOutput /\
        Varying.get den O (Job.Concept_getOutput den r.1) r.2
        = Some default_ctor /\
        forall l, is_Some (h !! l) -> r.2 !! l = h !! l).
Proof.
  split; [|split]; intros; subst r; (split; [reflexivity|]); split;
    first [ exact (get_of_data den O default_ctor h)
          | intros l Hl; exact (of_data_fresh den O default_ctor h l Hl) ].
Qed.


End JobFacts.


(* ===================================================================== *)
(** * [ItemMaterialBucketMap]                                             *)
(* ===================================================================== *)

Section BucketMapFacts.
Import model render.
Import ItemMaterialBucketMap.
Context {ItemID : Type}.

Implicit Types (m : list (MaterialFilter.t * list ItemID)).
Implicit Types (e : MaterialFilter.t * list ItemID).

(** The enumeration is strictly increasing for the comparison object. *)
Abbreviation ordered :=
  (StronglySorted (fun a b : MaterialFilter.t * list ItemID =>
                     value_comp a b = true)).

Lemma ordered_keys m m' : m'.*1 = m.*1 -> ordered m -> ordered m'.
Proof.
  intros Hkeys Hm. revert m' Hkeys.
  induction Hm as [|a m Hm IH Ha]; intros [|a' m'] Hkeys; try discriminate.
  - constructor.
  - injection Hkeys as Ha' Hkeys. fold (fst <$> m') (fst <$> m) in Hkeys.
    constructor; [now apply IH|].
    assert (Forall (fun k => MaterialFilter.Less a.1 k = true) m.*1) as Hk
      by (apply Forall_fmap; exact Ha).
    rewrite <- Hkeys, <- Ha' in Hk. apply Forall_fmap in Hk. exact Hk.
Qed.

Lemma std_insert_Forall (P : MaterialFilter.t * list ItemID -> Prop) f ids m :
  P (f, ids) -> Forall P m -> Forall P (std_insert f ids m).
Proof.
  intros Hf. induction 1 as [|[g ids'] m Hg Hm IH]; cbn.
  - now constructor.
  - destruct (MaterialFilter.Less f g); [now repeat constructor|].
    destruct (MaterialFilter.Less g f); now constructor.
Qed.

Lemma std_insert_ordered f ids m : ordered m -> ordered (std_insert f ids m).
Proof.
  induction 1 as [|[g ids'] m Hm IH Hg]; cbn.
  - now repeat constructor.
  - destruct (MaterialFilter.Less f g) eqn:Hfg.
    + constructor; [now constructor|]. constructor; [exact Hfg|].
      eapply Forall_impl; [exact Hg|]. intros e He. unfold value_comp in *.
      cbn in *. eapply Less_trans; eassumption.
    + destruct (MaterialFilter.Less g f) eqn:Hgf; [|now constructor].
      constructor; [exact IH|]. now apply std_insert_Forall.
Qed.

Lemma erase_ordered f m : ordered m -> ordered (erase f m).
Proof.
  unfold erase. induction 1 as [|a m Hm IH Ha]; cbn; [constructor|].
  destruct (decide _); [|exact IH].
  constructor; [exact IH|]. rewrite Forall_forall in Ha.
  apply Forall_forall. intros y Hy.
  apply list_elem_of_filter in Hy as [_ Hy]. now apply Ha.
Qed.

Lemma reachable_ordered m : reachable m -> ordered m.
Proof.
  induction 1 as [|f ids m _ IH|f m _ IH|m m' _ IH Hkeys].
  - constructor.
  - now apply std_insert_ordered.
  - now apply erase_ordered.
  - now apply (ordered_keys m).
Qed.

(** In an ordered enumeration, position and comparison agree. *)
Lemma ordered_lookup_lt m i j a b :
  ordered m -> m !! i = Some a -> m !! j = Some b -> (i < j)%nat ->
  value_comp a b = true.
Proof.
  intros Hm. revert i j. induction Hm as [|x m Hm IH Hx]; intros i j Hi Hj Hlt.
  - discriminate.
  - destruct j as [|j]; [lia|]. cbn in Hj. destruct i as [|i].
    + injection Hi as <-. rewrite Forall_forall in Hx. apply Hx.
      now apply list_elem_of_lookup_2 in Hj.
    + apply (IH i j); [exact Hi | exact Hj | lia].
Qed.

Lemma ordered_lookup_comp m i j a b :
  ordered m -> m !! i = Some a -> m !! j = Some b ->
  value_comp a b = true -> (i < j)%nat.
Proof.
  intros Hm Hi Hj Hab. destruct (Nat.lt_trichotomy i j) as [Hlt|[->|Hgt]].
  - exact Hlt.
  - rewrite Hi in Hj. injection Hj as <-. unfold value_comp in Hab.
    rewrite Less_irrefl in Hab. discriminate.
  - pose proof (ordered_lookup_lt m j i b a Hm Hj Hi Hgt) as Hba.
    unfold value_comp in *. apply Less_asym in Hab. congruence.
Qed.

Lemma ordered_NoDup m : ordered m -> NoDup m.
Proof.
  induction 1 as [|x m Hm IH Hx]; constructor; [|exact IH].
  intros Hin. rewrite Forall_forall in Hx. specialize (Hx x Hin).
  unfold value_comp in Hx. rewrite Less_irrefl in Hx. discriminate.
Qed.

(** The enumeration is determined by the entries, whatever the history. *)
Lemma ordered_unique m m' :
  ordered m -> ordered m' -> (forall e, e ∈ m <-> e ∈ m') -> m = m'.
Proof.
  intros Hm Hm' Hsame.
  apply (StronglySorted_unique_strong
           (fun a b : MaterialFilter.t * list ItemID => value_comp a b = true));
    [|exact Hm|exact Hm'|].
  - intros x1 x2 _ _ H12 H21. unfold value_comp in *.
    apply Less_asym in H12. congruence.
  - apply NoDup_Permutation; [now apply ordered_NoDup..|exact Hsame].
Qed.

(** *** The two member functions of [ItemMaterialBucketMap] *)

(** [insert(id, key)] writes to one mapped list and touches no key. *)
Lemma insert_keys (id : ItemID) key m : (insert id key m).*1 = m.*1.
Proof.
  induction m as [|[g ids] m IH]; [reflexivity|]. cbn.
  destruct (MaterialFilter.test g key); cbn; [reflexivity|]. now f_equal.
Qed.

Lemma insert_reachable (id : ItemID) key m :
  reachable m -> reachable (insert id key m).
Proof. intros Hm. apply (reachable_write m); [exact Hm | apply insert_keys]. Qed.

Lemma allocateStandardMaterialBuckets_reachable standard : forall m,
  reachable m -> reachable (allocateStandardMaterialBuckets standard m).
Proof.
  unfold allocateStandardMaterialBuckets.
  induction standard as [|f standard IH]; intros m Hm; [exact Hm|].
  cbn. apply IH. now apply reachable_insert.
Qed.

(** C3: the buckets of an [ItemMaterialBucketMap] are enumerated in the
    order of [MaterialFilter::Less]: of two filters in the map, the bucket
    of the [Less]-smaller one comes first.  The enumeration depends on the
    entries alone, not on how the map was built. *)
Theorem bucket_enumeration_order m :
  reachable m ->
  (forall i j f1 ids1 f2 ids2,
     m !! i = Some (f1, ids1) -> m !! j = Some (f2, ids2) ->
     (MaterialFilter.Less f1 f2 = true <-> (i < j)%nat))
  /\ (forall m', reachable m' -> (forall e, e ∈ m <-> e ∈ m') -> m' = m).
Proof.
  intros Hm. apply reachable_ordered in Hm. split.
  - intros i j f1 ids1 f2 ids2 Hi Hj. split.
    + exact (ordered_lookup_comp m i j _ _ Hm Hi Hj).
    + exact (ordered_lookup_lt m i j _ _ Hm Hi Hj).
  - intros m' Hm' Hsame. apply reachable_ordered in Hm'. symmetry.
    now apply ordered_unique.
Qed.


End BucketMapFacts.

(* ===================================================================== *)
(** * Worked instances                                                   *)
(* ===================================================================== *)

Section SampleFacts.
Import model render render.Sample.



(** A value assigned to the slot at address 1 is read back through a copy
    of the varying. *)
Lemma Varying_read_after_write_witness :
  Varying.get den TList (Varying.copy (Varying.mk (Some 1%positive) []))
    (Varying.assign den TList 1%positive [7]
       {[1%positive := Varying.mkModel den TList [3; 4]]})
  = Some [7].
Proof.
  exact (proj1 (proj2
    (Varying_read_after_write den (SceneContextPointer := unit)
       (RenderContextPointer := unit) (World := list Z)
       TList (Varying.mk (Some 1%positive) [])
       {[1%positive := Varying.mkModel den TList [3; 4]]} 1%positive [7]
       eq_refl))).
Defined.

(** Constructing an output-only job next to an existing slot leaves that
    slot alone and gives the job an empty list as output. *)
Lemma output_default_constructed_witness :
  (Job.ModelO_new den Z TList (R := fetch) (World := list Z)
     {[1%positive := Varying.mkModel den TInt 5]}).2 !! 1%positive
  = ({[1%positive := Varying.mkModel den TInt 5]}
       : gmap positive (Varying.Model den)) !! 1%positive.
Proof.
  apply (proj1 (output_default_constructed den) Z TList fetch Z_default
           {[1%positive := Varying.mkModel den TInt 5]}).
  exists (Varying.mkModel den TInt 5). reflexivity.
Defined.


(** Two buckets inserted in descending order are enumerated in ascending
    order. *)
Lemma bucket_enumeration_order_witness :
  MaterialFilter.Less (MaterialFilter.mk 1 1) (MaterialFilter.mk 2 3) = true
  <-> (0 < 1)%nat.
Proof.
  apply (proj1 (bucket_enumeration_order
    (ItemMaterialBucketMap.std_insert (MaterialFilter.mk 1 1) []
       (ItemMaterialBucketMap.std_insert (MaterialFilter.mk 2 3) [7%nat]
          ItemMaterialBucketMap.new))
    (ItemMaterialBucketMap.reachable_insert _ _ _
       (ItemMaterialBucketMap.reachable_insert _ _ _
          ItemMaterialBucketMap.reachable_new)))
    0%nat 1%nat (MaterialFilter.mk 1 1) [] (MaterialFilter.mk 2 3) [7%nat]);
    reflexivity.
Defined.


End SampleFacts.

(* ===================================================================== *)
(** * The traits of [MaterialKey]: setters, getters and the builder       *)
(* ===================================================================== *)

Section TraitFacts.
Import model.

Lemma trait_bit_in_range trait : Flags.in_range (trait_bit trait) = true.
Proof. now destruct trait. Qed.

Lemma trait_bit_inj trait trait' :
  trait_bit trait = trait_bit trait' -> trait = trait'.
Proof.
  destruct trait, trait'; intros Heq; try reflexivity;
    vm_compute in Heq; discriminate Heq.
Qed.

Lemma set_trait_set_bit trait value k :
  MaterialKey.set_trait trait value k
  = MaterialKey.set_bit (trait_bit trait) value k.
Proof. now destruct trait. Qed.

Lemma is_trait_is_bit trait k :
  MaterialKey.is_trait trait k = Some (Z.testbit (MaterialKey._flags k) (trait_bit trait)).
Proof. now destruct trait. Qed.

Lemma MaterialKey_eq_bits k k' :
  (forall i, Z.testbit (MaterialKey._flags k) i
             = Z.testbit (MaterialKey._flags k') i) ->
  k = k'.
Proof.
  destruct k as [f], k' as [f']. cbn. intros Hbits. f_equal.
  apply Z.bits_inj'. intros i _. apply Hbits.
Qed.

(** A setter never fails, and its result is known bit by bit. *)
Lemma set_trait_Some trait value k :
  exists k',
    MaterialKey.set_trait trait value k = Some k' /\
    forall i, Z.testbit (MaterialKey._flags k') i
              = if i =? trait_bit trait then value
                else Z.testbit (MaterialKey._flags k) i.
Proof.
  rewrite set_trait_set_bit. unfold MaterialKey.set_bit.
  rewrite Flags_set_Some by apply trait_bit_in_range. cbn.
  eexists. split; [reflexivity|]. cbn.
  apply Flags_set_testbit. apply Flags_set_Some, trait_bit_in_range.
Qed.

(** X1: every setter is read back by its getter and by no other getter. *)
Theorem set_trait_is_trait trait value k :
  exists k',
    MaterialKey.set_trait trait value k = Some k' /\
    MaterialKey.is_trait trait k' = Some value /\
    (forall trait', trait' <> trait ->
       MaterialKey.is_trait trait' k' = MaterialKey.is_trait trait' k) /\
    (Flags.wf (MaterialKey._flags k) -> Flags.wf (MaterialKey._flags k')).
Proof.
  destruct (set_trait_Some trait value k) as (k' & Hset & Hbits).
  exists k'. split; [exact Hset|]. split; [|split].
  - rewrite is_trait_is_bit, Hbits, Z.eqb_refl. reflexivity.
  - intros trait' Hne. rewrite !is_trait_is_bit, Hbits.
    destruct (Z.eqb_spec (trait_bit trait') (trait_bit trait)) as [Heq|_];
      [|reflexivity].
    apply trait_bit_inj in Heq. contradiction.
  - intros Hwf. rewrite set_trait_set_bit in Hset.
    unfold MaterialKey.set_bit in Hset.
    apply bind_Some in Hset as (f & Hf & [= <-]).
    exact (Flags_set_wf _ _ _ _ Hwf Hf).
Qed.

Lemma set_trait_is_trait_witness :
  exists k',
    MaterialKey.set_trait Gloss true (MaterialKey.mk 2) = Some k' /\
    MaterialKey.is_trait Albedo k' = MaterialKey.is_trait Albedo (MaterialKey.mk 2) /\
    Flags.wf (MaterialKey._flags k').
Proof.
  destruct (set_trait_is_trait Gloss true (MaterialKey.mk 2))
    as (k' & Hset & _ & Hother & Hwf).
  exists k'. split; [exact Hset|]. split.
  - apply Hother. discriminate.
  - apply Hwf. unfold Flags.wf, NUM_FLAGS. cbn. lia.
Defined.

(** X2: a second call of a setter overrides the first, and the setters of
    two different traits can be called in either order. *)
Theorem set_trait_compose trait trait' value value' k :
  (MaterialKey.set_trait trait value k ≫= MaterialKey.set_trait trait value')
  = MaterialKey.set_trait trait value' k
  /\ (trait <> trait' ->
      (MaterialKey.set_trait trait value k
         ≫= MaterialKey.set_trait trait' value')
      = (MaterialKey.set_trait trait' value' k
           ≫= MaterialKey.set_trait trait value)).
Proof.
  destruct (set_trait_Some trait value k) as (k1 & H1 & B1).
  destruct (set_trait_Some trait value' k) as (k2 & H2 & B2).
  destruct (set_trait_Some trait value' k1) as (k12 & H12 & B12).
  destruct (set_trait_Some trait' value' k) as (k3 & H3 & B3).
  destruct (set_trait_Some trait' value' k1) as (k13 & H13 & B13).
  destruct (set_trait_Some trait value k3) as (k31 & H31 & B31).
  rewrite H1, H2, H3. cbn. rewrite H12, H13, H31. split.
  - f_equal. apply MaterialKey_eq_bits. intros i. rewrite B12, B2, B1.
    now destruct (i =? trait_bit trait).
  - intros Hne. f_equal. apply MaterialKey_eq_bits. intros i.
    rewrite B13, B31, B1, B3.
    destruct (Z.eqb_spec i (trait_bit trait')) as [->|_]; [|reflexivity].
    destruct (Z.eqb_spec (trait_bit trait') (trait_bit trait)) as [Heq|_];
      [|reflexivity].
    apply trait_bit_inj in Heq. congruence.
Qed.

Lemma set_trait_compose_witness :
  (MaterialKey.set_trait Albedo true (MaterialKey.mk 0)
     ≫= MaterialKey.set_trait NormalMap true)
  = (MaterialKey.set_trait NormalMap true (MaterialKey.mk 0)
       ≫= MaterialKey.set_trait Albedo true).
Proof.
  apply (set_trait_compose Albedo NormalMap true true (MaterialKey.mk 0)).
  discriminate.
Defined.

(** *** [MaterialKey::Builder] *)

Lemma key_with_trait_Some trait b :
  exists b',
    MaterialKey.Builder.with_trait trait b = Some b' /\
    MaterialKey.set_trait trait true (MaterialKey.Builder.build b)
    = Some (MaterialKey.Builder.build b') /\
    (Flags.wf (MaterialKey.Builder._flags b) ->
     Flags.wf (MaterialKey.Builder._flags b')) /\
    forall i, Z.testbit (MaterialKey.Builder._flags b') i
              = if i =? trait_bit trait then true
                else Z.testbit (MaterialKey.Builder._flags b) i.
Proof.
  assert (MaterialKey.Builder.with_trait trait b
          = MaterialKey.Builder.with_bit (trait_bit trait) b) as ->
    by now destruct trait.
  rewrite set_trait_set_bit.
  unfold MaterialKey.Builder.with_bit, MaterialKey.set_bit.
  cbn [MaterialKey.Builder.build MaterialKey.of_flags MaterialKey._flags].
  pose proof (Flags_set_Some (MaterialKey.Builder._flags b) (trait_bit trait)
                true (trait_bit_in_range trait)) as Hset.
  rewrite Hset. cbn. eexists. split; [reflexivity|]. split; [reflexivity|].
  cbn. split.
  - intros Hwf. exact (Flags_set_wf _ _ _ _ Hwf Hset).
  - exact (Flags_set_testbit _ _ _ _ Hset).
Qed.

(** The setters of the listed traits, called with [true] one after the
    other. *)
Lemma key_with_traits_Some traits : forall b,
  exists b',
    MaterialKey.Builder.with_traits traits b = Some b' /\
    foldl (fun r trait => r ≫= MaterialKey.set_trait trait true)
          (Some (MaterialKey.Builder.build b)) traits
    = Some (MaterialKey.Builder.build b') /\
    (Flags.wf (MaterialKey.Builder._flags b) ->
     Flags.wf (MaterialKey.Builder._flags b')) /\
    forall trait,
      Z.testbit (MaterialKey.Builder._flags b') (trait_bit trait)
      = bool_decide (trait ∈ traits)
        || Z.testbit (MaterialKey.Builder._flags b) (trait_bit trait).
Proof.
  induction traits as [|t traits IH]; intros b.
  - exists b. split; [reflexivity|]. split; [reflexivity|].
    split; [tauto|]. intros trait. rewrite bool_decide_eq_false_2; [reflexivity|].
    apply not_elem_of_nil.
  - destruct (key_with_trait_Some t b) as (b1 & Hcall & Hset & Hwf1 & Hbits1).
    destruct (IH b1) as (b' & Hcalls & Hfold & Hwf & Hbits).
    exists b'. split; [cbn; rewrite Hcall; exact Hcalls|].
    split; [cbn; rewrite Hset; exact Hfold|]. split; [tauto|].
    intros trait. rewrite Hbits, Hbits1.
    destruct (Z.eqb_spec (trait_bit trait) (trait_bit t)) as [Heq|Hne].
    + apply trait_bit_inj in Heq as ->. rewrite orb_true_r.
      rewrite bool_decide_eq_true_2; [reflexivity | now left].
    + destruct (decide (trait ∈ traits)) as [Hin|Hnin].
      * rewrite !bool_decide_eq_true_2; [reflexivity | now right | exact Hin].
      * rewrite !bool_decide_eq_false_2; [reflexivity | | exact Hnin].
        intros Hin. apply elem_of_cons in Hin as [->|Hin]; contradiction.
Qed.

(** X3: a chain of [withX()] calls on a fresh key builder never fails; the
    key it builds has exactly the traits that were named, fits the bitset,
    and is the key that the setters of these traits, called with [true] on a
    default key, produce. *)
Theorem key_builder_builds_named_traits (traits : list Trait) :
  exists b,
    MaterialKey.Builder.with_traits traits MaterialKey.Builder.new = Some b /\
    (forall trait,
       MaterialKey.is_trait trait (MaterialKey.Builder.build b)
       = Some (bool_decide (trait ∈ traits))) /\
    Flags.wf (MaterialKey._flags (MaterialKey.Builder.build b)) /\
    foldl (fun r trait => r ≫= MaterialKey.set_trait trait true)
          (Some MaterialKey.new) traits
    = Some (MaterialKey.Builder.build b).
Proof.
  destruct (key_with_traits_Some traits MaterialKey.Builder.new)
    as (b & Hcalls & Hfold & Hwf & Hbits).
  exists b. split; [exact Hcalls|]. split; [|split].
  - intros trait. rewrite is_trait_is_bit. f_equal.
    cbn [MaterialKey.Builder.build MaterialKey.of_flags MaterialKey._flags].
    rewrite Hbits. cbn. rewrite Z.testbit_0_l. apply orb_false_r.
  - apply Hwf. apply Flags_of_ulong_wf.
  - exact Hfold.
Qed.


End TraitFacts.

(* ===================================================================== *)
(** * [MaterialFilter::Builder] and the keys a filter accepts             *)
(* ===================================================================== *)

Section FilterBuilderFacts.
Import model.

(** Every position of the bitset is the bit of a trait. *)
Lemma trait_bit_surj i : 0 <= i < NUM_FLAGS -> exists trait, trait_bit trait = i.
Proof.
  unfold NUM_FLAGS. intros Hi.
  assert (i = 0 \/ i = 1 \/ i = 2 \/ i = 3 \/ i = 4 \/ i = 5 \/ i = 6 \/
          i = 7 \/ i = 8 \/ i = 9 \/ i = 10 \/ i = 11) as Hcases by lia.
  destruct Hcases as [->|[->|[->|[->|[->|[->|[->|[->|[->|[->|[->| ->]]]]]]]]]]].
  - now exists Emissive.
  - now exists Albedo.
  - now exists Metallic.
  - now exists Gloss.
  - now exists Transparent.
  - now exists EmissiveMap.
  - now exists AlbedoMap.
  - now exists MetallicMap.
  - now exists GlossMap.
  - now exists TransparentMap.
  - now exists NormalMap.
  - now exists LightmapMap.
Qed.

Lemma filter_require_Some r b :
  exists b',
    MaterialFilter.Builder.require r b = Some b' /\
    (forall i, Z.testbit (MaterialFilter.Builder._mask b') i
               = if i =? trait_bit r.1 then true
                 else Z.testbit (MaterialFilter.Builder._mask b) i) /\
    (forall i, Z.testbit (MaterialFilter.Builder._value b') i
               = if i =? trait_bit r.1 then r.2
                 else Z.testbit (MaterialFilter.Builder._value b) i) /\
    (MaterialFilter.masked (MaterialFilter.Builder._value b)
                        (MaterialFilter.Builder._mask b) ->
     MaterialFilter.masked (MaterialFilter.Builder._value b')
                        (MaterialFilter.Builder._mask b')).
Proof.
  destruct r as [trait present].
  assert (MaterialFilter.Builder.require (trait, present) b
          = (v ← Flags.set (MaterialFilter.Builder._value b) (trait_bit trait)
                  present;
             m ← Flags.set (MaterialFilter.Builder._mask b) (trait_bit trait)
                  true;
             Some (MaterialFilter.Builder.mk v m))) as ->
    by (destruct present, trait; reflexivity).
  pose proof (Flags_set_Some (MaterialFilter.Builder._value b) (trait_bit trait)
                present (trait_bit_in_range trait)) as Hv.
  pose proof (Flags_set_Some (MaterialFilter.Builder._mask b) (trait_bit trait)
                true (trait_bit_in_range trait)) as Hm.
  rewrite Hv, Hm. cbn [mbind option_bind]. eexists. split; [reflexivity|].
  cbn [MaterialFilter.Builder._mask MaterialFilter.Builder._value fst snd].
  pose proof (Flags_set_testbit _ _ _ _ Hv) as Bv.
  pose proof (Flags_set_testbit _ _ _ _ Hm) as Bm.
  split; [exact Bm|]. split; [exact Bv|].
  intros (Wv & Wm & Hsub). split; [exact (Flags_set_wf _ _ _ _ Wv Hv)|].
  split; [exact (Flags_set_wf _ _ _ _ Wm Hm)|].
  intros i. rewrite Bv, Bm. destruct (i =? trait_bit trait); [reflexivity|].
  apply Hsub.
Qed.

(** The bits of the builder after a chain of calls: for each trait, the last
    call that names it decides; a trait no call names is as before. *)
Lemma filter_requires_Some rs : forall b,
  exists b',
    MaterialFilter.Builder.requires rs b = Some b' /\
    (MaterialFilter.masked (MaterialFilter.Builder._value b)
                        (MaterialFilter.Builder._mask b) ->
     MaterialFilter.masked (MaterialFilter.Builder._value b')
                        (MaterialFilter.Builder._mask b')) /\
    forall trait,
      match last (filter (fun r => r.1 = trait) rs) with
      | Some r =>
          Z.testbit (MaterialFilter.Builder._mask b') (trait_bit trait) = true /\
          Z.testbit (MaterialFilter.Builder._value b') (trait_bit trait) = r.2
      | None =>
          Z.testbit (MaterialFilter.Builder._mask b') (trait_bit trait)
          = Z.testbit (MaterialFilter.Builder._mask b) (trait_bit trait) /\
          Z.testbit (MaterialFilter.Builder._value b') (trait_bit trait)
          = Z.testbit (MaterialFilter.Builder._value b) (trait_bit trait)
      end.
Proof.
  induction rs as [|r rs IH]; intros b.
  - exists b. split; [reflexivity|]. split; [tauto|]. intros trait. cbn. tauto.
  - destruct (filter_require_Some r b) as (b1 & Hcall & Bm & Bv & Hinv1).
    destruct (IH b1) as (b' & Hcalls & Hinv & Hbits).
    exists b'. split; [cbn; rewrite Hcall; exact Hcalls|]. split; [tauto|].
    intros trait. specialize (Hbits trait). rewrite filter_cons.
    destruct (decide (r.1 = trait)) as [Heq|Hne].
    + rewrite last_cons.
      destruct (last (filter (fun r0 => r0.1 = trait) rs)) as [r'|];
        [exact Hbits|].
      destruct Hbits as [-> ->]. rewrite Bm, Bv, Heq, Z.eqb_refl. tauto.
    + destruct (last (filter (fun r0 => r0.1 = trait) rs)) as [r'|];
        [exact Hbits|].
      destruct Hbits as [-> ->]. rewrite Bm, Bv.
      destruct (Z.eqb_spec (trait_bit trait) (trait_bit r.1)) as [Heq|_];
        [|tauto].
      apply trait_bit_inj in Heq. congruence.
Qed.

Lemma masked_new :
  MaterialFilter.masked (MaterialFilter.Builder._value MaterialFilter.Builder.new)
                     (MaterialFilter.Builder._mask MaterialFilter.Builder.new).
Proof.
  split; [apply Flags_of_ulong_wf|]. split; [apply Flags_of_ulong_wf|].
  intros i. cbn. rewrite Z.testbit_0_l. discriminate.
Qed.

Lemma land_subset value mask :
  (forall i, Z.testbit value i = true -> Z.testbit mask i = true) ->
  Z.land value mask = value.
Proof.
  intros Hsub. apply Z.bits_inj'. intros i _. rewrite Z.land_spec.
  destruct (Z.testbit value i) eqn:Hv; [|reflexivity].
  now rewrite (Hsub i Hv).
Qed.

(** X4: a chain of [withX()] and [withoutX()] calls on a fresh filter
    builder never fails and builds a filter whose value and mask fit the
    bitset, the value having no bit outside the mask; such a filter accepts
    a key exactly when the key's masked flags equal the value. *)
Theorem filter_builder_masked (rs : list (Trait * bool)) :
  exists b,
    MaterialFilter.Builder.requires rs MaterialFilter.Builder.new = Some b /\
    MaterialFilter.masked
      (MaterialFilter._value (MaterialFilter.Builder.build b))
      (MaterialFilter._mask (MaterialFilter.Builder.build b)) /\
    forall k,
      MaterialFilter.test (MaterialFilter.Builder.build b) k
      = (Z.land (MaterialKey._flags k)
                (MaterialFilter._mask (MaterialFilter.Builder.build b))
         =? MaterialFilter._value (MaterialFilter.Builder.build b)).
Proof.
  destruct (filter_requires_Some rs MaterialFilter.Builder.new)
    as (b & Hcalls & Hinv & _).
  specialize (Hinv masked_new).
  exists b. split; [exact Hcalls|]. split; [exact Hinv|].
  intros k. unfold MaterialFilter.test, Flags.eq, Flags.and.
  cbn [MaterialFilter.Builder.build MaterialFilter.of_flags
       MaterialFilter._mask MaterialFilter._value] in *.
  destruct Hinv as (_ & _ & Hsub). now rewrite (land_subset _ _ Hsub).
Qed.

(** What the filter built by a chain of calls accepts. *)
Lemma filter_requires_accepts (rs : list (Trait * bool)) b k :
  MaterialFilter.Builder.requires rs MaterialFilter.Builder.new = Some b ->
  MaterialFilter.test (MaterialFilter.Builder.build b) k = true <->
  forall trait present,
    last (filter (fun r => r.1 = trait) rs) = Some (trait, present) ->
    MaterialKey.is_trait trait k = Some present.
Proof.
  intros Hb.
  destruct (filter_requires_Some rs MaterialFilter.Builder.new)
    as (b' & Hcalls & Hinv & Hbits).
  assert (b' = b) as -> by congruence. clear Hb.
  destruct (Hinv masked_new) as (_ & Wm & _).
  rewrite test_bits by exact Wm.
  cbn [MaterialFilter.Builder.build MaterialFilter.of_flags
       MaterialFilter._mask MaterialFilter._value].
  split.
  - intros Htest trait present Hlast. specialize (Hbits trait).
    rewrite Hlast in Hbits. destruct Hbits as [Hm Hv]. cbn [snd] in Hv.
    rewrite is_trait_is_bit. f_equal. rewrite <- Hv. apply Htest; [|exact Hm].
    apply Flags_in_range_spec, trait_bit_in_range.
  - intros Hreq i Hi Hm. destruct (trait_bit_surj i Hi) as [trait <-].
    specialize (Hbits trait).
    destruct (last (filter (fun r => r.1 = trait) rs)) as [[t p]|] eqn:Hlast.
    + assert (t = trait) as ->.
      { apply last_Some_elem_of, list_elem_of_filter in Hlast as [Ht _].
        exact Ht. }
      destruct Hbits as [_ Hv]. cbn [snd] in Hv. rewrite Hv.
      specialize (Hreq trait p Hlast). rewrite is_trait_is_bit in Hreq.
      now apply (inj Some) in Hreq.
    + destruct Hbits as [Hm' _]. rewrite Hm in Hm'. cbn in Hm'.
      rewrite Z.testbit_0_l in Hm'. discriminate.
Qed.

(** X5: the filter built by a chain of calls accepts a key exactly when, for
    every trait the chain names, the key has the trait if the last call
    naming it was [withX()] and lacks it if that call was [withoutX()];
    traits the chain does not name are free. *)
Theorem filter_builder_accepts (rs : list (Trait * bool)) :
  exists b,
    MaterialFilter.Builder.requires rs MaterialFilter.Builder.new = Some b /\
    forall k,
      MaterialFilter.test (MaterialFilter.Builder.build b) k = true <->
      forall trait present,
        last (filter (fun r => r.1 = trait) rs) = Some (trait, present) ->
        MaterialKey.is_trait trait k = Some present.
Proof.
  destruct (filter_requires_Some rs MaterialFilter.Builder.new)
    as (b & Hcalls & _).
  exists b. split; [exact Hcalls|]. intros k.
  now apply filter_requires_accepts.
Qed.

Lemma filter_builder_accepts_witness :
  MaterialKey.is_trait Transparent (MaterialKey.mk 2) = Some false.
Proof.
  destruct (filter_builder_accepts
              [(Albedo, true); (Transparent, true); (Transparent, false)])
    as (b & Hb & Haccepts).
  injection Hb as <-.
  apply (proj1 (Haccepts (MaterialKey.mk 2)) eq_refl Transparent false).
  reflexivity.
Defined.

(** X6: a setter of a trait that a filter's mask does not constrain never
    changes the filter's verdict on the key. *)
Theorem test_ignores_unmasked_trait f trait value k :
  Z.testbit (MaterialFilter._mask f) (trait_bit trait) = false ->
  exists k',
    MaterialKey.set_trait trait value k = Some k' /\
    MaterialFilter.test f k' = MaterialFilter.test f k.
Proof.
  intros Hm. destruct (set_trait_Some trait value k) as (k' & Hset & Hbits).
  exists k'. split; [exact Hset|].
  unfold MaterialFilter.test, Flags.eq, Flags.and. f_equal.
  apply Z.bits_inj'. intros i _. rewrite !Z.land_spec, Hbits.
  destruct (Z.eqb_spec i (trait_bit trait)) as [->|_]; [|reflexivity].
  now rewrite Hm, !andb_false_r.
Qed.

Lemma test_ignores_unmasked_trait_witness :
  exists k',
    MaterialKey.set_trait NormalMap true (MaterialKey.mk 2) = Some k' /\
    MaterialFilter.test (MaterialFilter.mk 2 18) k'
    = MaterialFilter.test (MaterialFilter.mk 2 18) (MaterialKey.mk 2).
Proof.
  apply (test_ignores_unmasked_trait (MaterialFilter.mk 2 18) NormalMap true
           (MaterialKey.mk 2)).
  reflexivity.
Defined.


(** X16: a key made by the key builder passes a filter made by the filter
    builder exactly when every trait the filter's chain names was asked
    present, in the last call naming it, if and only if the key's chain
    names it too.  The two standard constants [opaqueAlbedo] are such a
    pair. *)
Theorem built_key_passes_built_filter (traits : list Trait)
    (rs : list (Trait * bool)) :
  exists bk bf,
    MaterialKey.Builder.with_traits traits MaterialKey.Builder.new = Some bk /\
    MaterialFilter.Builder.requires rs MaterialFilter.Builder.new = Some bf /\
    (MaterialFilter.test (MaterialFilter.Builder.build bf)
                         (MaterialKey.Builder.build bk) = true <->
     forall trait present,
       last (filter (fun r => r.1 = trait) rs) = Some (trait, present) ->
       present = bool_decide (trait ∈ traits)).
Proof.
  destruct (key_with_traits_Some traits MaterialKey.Builder.new)
    as (bk & Hk & _ & _ & Hbits).
  destruct (filter_requires_Some rs MaterialFilter.Builder.new)
    as (bf & Hf & _).
  exists bk, bf. split; [exact Hk|]. split; [exact Hf|].
  rewrite (filter_requires_accepts rs bf _ Hf).
  assert (forall trait,
            MaterialKey.is_trait trait (MaterialKey.Builder.build bk)
            = Some (bool_decide (trait ∈ traits))) as His.
  { intros trait. rewrite is_trait_is_bit. f_equal.
    cbn [MaterialKey.Builder.build MaterialKey.of_flags MaterialKey._flags].
    rewrite Hbits. cbn. rewrite Z.testbit_0_l. apply orb_false_r. }
  split; intros Hreq trait present Hlast; specialize (Hreq trait present Hlast).
  - rewrite His in Hreq. now apply (inj Some) in Hreq.
  - now rewrite His, Hreq.
Qed.

Lemma built_key_passes_built_filter_witness :
  exists k f,
    MaterialKey.Builder.opaqueAlbedo = Some k /\
    MaterialFilter.Builder.opaqueAlbedo = Some f /\
    MaterialFilter.test f k = true.
Proof.
  destruct (built_key_passes_built_filter
              [Albedo] [(Albedo, true); (Transparent, false)])
    as (bk & bf & Hk & Hf & Hpass).
  injection Hk as <-. injection Hf as <-.
  eexists _, _. split; [reflexivity|]. split; [reflexivity|].
  apply Hpass. intros trait present Hlast.
  destruct trait; cbn in Hlast; try discriminate Hlast;
    now injection Hlast as <-.
Defined.

(** *** Filters that accept the same keys *)

(** A key that fits the bitset and passes a filter can be found in the
    filter's value; flipping a bit outside the mask keeps it passing. *)
Lemma test_value_key f :
  Flags.wf (MaterialFilter._mask f) ->
  MaterialFilter.test f (MaterialKey.mk (MaterialFilter._value f)) = true.
Proof. intros Wm. apply test_bits; [exact Wm|]. reflexivity. Qed.

Lemma mask_included f f' :
  Flags.wf (MaterialFilter._mask f) -> Flags.wf (MaterialFilter._mask f') ->
  Flags.wf (MaterialFilter._value f') ->
  (forall k, Flags.wf (MaterialKey._flags k) ->
             MaterialFilter.test f k = MaterialFilter.test f' k) ->
  forall i, 0 <= i < NUM_FLAGS ->
    Z.testbit (MaterialFilter._mask f) i = true ->
    Z.testbit (MaterialFilter._mask f') i = true.
Proof.
  intros Wm Wm' Wv' Hsame i Hi Hm.
  destruct (Z.testbit (MaterialFilter._mask f') i) eqn:Hm'; [reflexivity|].
  exfalso.
  pose (v' := MaterialFilter._value f').
  assert (Flags.in_range i = true) as Hr by now apply Flags_in_range_spec.
  pose proof (Flags_set_Some v' i (negb (Z.testbit v' i)) Hr) as Hset.
  pose proof (Flags_set_testbit _ _ _ _ Hset) as Hbits.
  pose proof (Flags_set_wf _ _ _ _ Wv' Hset) as Wz.
  set (z := if negb (Z.testbit v' i) then Z.setbit v' i else Z.clearbit v' i)
    in *.
  assert (MaterialFilter.test f (MaterialKey.mk v') = true) as H0.
  { rewrite Hsame by exact Wv'. now apply test_value_key. }
  assert (MaterialFilter.test f (MaterialKey.mk z) = true) as H1.
  { rewrite Hsame by exact Wz. apply test_bits; [exact Wm'|].
    intros j Hj Hmj. cbn [MaterialKey._flags]. rewrite Hbits.
    destruct (Z.eqb_spec j i) as [->|_]; [congruence | reflexivity]. }
  pose proof (proj1 (test_bits f _ Wm) H0 i Hi Hm) as B0.
  pose proof (proj1 (test_bits f _ Wm) H1 i Hi Hm) as B1.
  clear H0 H1. rename B0 into H0. rename B1 into H1.
  cbn [MaterialKey._flags] in H0, H1. rewrite Hbits, Z.eqb_refl in H1.
  rewrite <- H0 in H1. now destruct (Z.testbit v' i).
Qed.

Lemma Flags_eq_bits a b :
  Flags.wf a -> Flags.wf b ->
  (forall i, 0 <= i < NUM_FLAGS -> Z.testbit a i = Z.testbit b i) -> a = b.
Proof.
  intros Wa Wb Hbits. apply Flags_wf_bits in Wa as [_ Ha].
  apply Flags_wf_bits in Wb as [_ Hb]. apply Z.bits_inj'. intros i Hi.
  destruct (Z.lt_ge_cases i NUM_FLAGS) as [Hlt|Hge].
  - apply Hbits. lia.
  - now rewrite Ha, Hb.
Qed.

(** X7: among filters whose value has no bit outside the mask, as the
    builder makes them, two filters accept the same keys only if they are
    the same filter, that is the same bucket key under [Less]. *)
Theorem masked_filters_canonical f f' :
  MaterialFilter.masked (MaterialFilter._value f) (MaterialFilter._mask f) ->
  MaterialFilter.masked (MaterialFilter._value f') (MaterialFilter._mask f') ->
  ((forall k, Flags.wf (MaterialKey._flags k) ->
              MaterialFilter.test f k = MaterialFilter.test f' k)
   <-> f = f')
  /\ (f = f' <->
      MaterialFilter.Less f f' = false /\ MaterialFilter.Less f' f = false).
Proof.
  intros (Wv & Wm & Hsub) (Wv' & Wm' & Hsub'). split.
  - split; [|now intros ->]. intros Hsame.
    assert (MaterialFilter._mask f = MaterialFilter._mask f') as Hmask.
    { apply Flags_eq_bits; [exact Wm | exact Wm' |]. intros i Hi.
      destruct (Z.testbit (MaterialFilter._mask f) i) eqn:Hm.
      - symmetry. exact (mask_included f f' Wm Wm' Wv' Hsame i Hi Hm).
      - destruct (Z.testbit (MaterialFilter._mask f') i) eqn:Hm';
          [|reflexivity].
        rewrite (mask_included f' f Wm' Wm Wv
                   (fun k Wk => eq_sym (Hsame k Wk)) i Hi Hm') in Hm.
        discriminate. }
    assert (MaterialFilter._value f = MaterialFilter._value f') as Hvalue.
    { assert (MaterialFilter.test f (MaterialKey.mk (MaterialFilter._value f'))
              = true) as Ht
        by (rewrite Hsame by exact Wv'; now apply test_value_key).
      pose proof (proj1 (test_bits f _ Wm) Ht) as Hb. clear Ht.
      cbn [MaterialKey._flags] in Hb. rename Hb into Ht.
      apply Flags_eq_bits; [exact Wv | exact Wv' |]. intros i Hi.
      destruct (Z.testbit (MaterialFilter._mask f) i) eqn:Hm.
      - symmetry. exact (Ht i Hi Hm).
      - destruct (Z.testbit (MaterialFilter._value f) i) eqn:Hv;
          [rewrite (Hsub i Hv) in Hm; discriminate|].
        destruct (Z.testbit (MaterialFilter._value f') i) eqn:Hv';
          [|reflexivity].
        rewrite Hmask, (Hsub' i Hv') in Hm. discriminate. }
    destruct f, f'. cbn in *. congruence.
  - split.
    + intros ->. split; apply Less_irrefl.
    + intros [H1 H2]. now apply Less_incomparable_eq.
Qed.

Lemma masked_filters_canonical_witness :
  MaterialFilter.Less (MaterialFilter.mk 2 18) (MaterialFilter.mk 2 18) = false.
Proof.
  assert (MaterialFilter.masked 2 18) as Hmasked.
  { split; [unfold Flags.wf, NUM_FLAGS; lia|].
    split; [unfold Flags.wf, NUM_FLAGS; lia|]. intros i Hi.
    destruct (Z.eqb_spec i 1) as [->|Hne]; [reflexivity|].
    exfalso. destruct i as [|p|p]; try discriminate Hi.
    destruct p as [[p|p|]|[p|p|]|]; try discriminate Hi. now apply Hne. }
  exact (proj1 (proj1 (proj2 (masked_filters_canonical
           (MaterialFilter.mk 2 18) (MaterialFilter.mk 2 18)
           Hmasked Hmasked)) eq_refl)).
Defined.

(** X8: [test] does not look at value bits outside the mask, [Less] does.
    A filter constructed from flags with such bits accepts the same keys as
    the filter with these bits cleared, and yet is another map key, ordered
    after it. *)
Theorem unmasked_value_bits f :
  0 <= MaterialFilter._value f ->
  let f' := MaterialFilter.of_flags
              (Flags.and (MaterialFilter._value f) (MaterialFilter._mask f))
              (MaterialFilter._mask f) in
  (forall k, MaterialFilter.test f' k = MaterialFilter.test f k)
  /\ (Flags.and (MaterialFilter._value f) (MaterialFilter._mask f)
      <> MaterialFilter._value f ->
      MaterialFilter.Less f' f = true /\ MaterialFilter.Less f f' = false).
Proof.
  intros Hv f'. subst f'. destruct f as [v m]. cbn in *. split.
  - intros k. unfold MaterialFilter.test, Flags.eq, Flags.and. cbn.
    now rewrite <- Z.land_assoc, Z.land_diag.
  - intros Hne. unfold Flags.and in *.
    assert (Z.land v m <= v) as Hle.
    { assert (Z.land (Z.ldiff v m) (Z.land v m) = 0) as Hdisj.
      { rewrite (Z.land_comm v m), Z.land_assoc, Z.land_ldiff.
        apply Z.land_0_l. }
      pose proof (Z.add_nocarry_lxor _ _ Hdisj) as Hadd.
      rewrite (Z.lxor_lor _ _ Hdisj), Z.lor_ldiff_and in Hadd.
      assert (0 <= Z.ldiff v m) by (apply Z.ldiff_nonneg; now left). lia. }
    assert (MaterialFilter.Less (MaterialFilter.mk (Z.land v m) m)
                                (MaterialFilter.mk v m) = true) as Hless
      by (apply Less_lex; cbn; lia).
    split; [exact Hless | now apply Less_asym].
Qed.

Lemma unmasked_value_bits_witness :
  MaterialFilter.Less (MaterialFilter.mk 1 1) (MaterialFilter.mk 3 1) = true
  /\ MaterialFilter.Less (MaterialFilter.mk 3 1) (MaterialFilter.mk 1 1) = false.
Proof.
  apply (unmasked_value_bits (MaterialFilter.mk 3 1)).
  - cbn. lia.
  - cbn. discriminate.
Defined.


End FilterBuilderFacts.

(* ===================================================================== *)
(** * What a job's [run] reads, writes and keeps                          *)
(* ===================================================================== *)

Section JobFrameFacts.
Import render.
Context {Ty : Type} `{EqDecision Ty} (den : Ty -> Type).
Context {den_default : forall T : Ty, DefaultCtor (den T)}.
Context {SceneContextPointer RenderContextPointer World : Type}.

Abbreviation Run := (@Run SceneContextPointer RenderContextPointer World).
Abbreviation RunI := (@RunI SceneContextPointer RenderContextPointer World).
Abbreviation RunO := (@RunO SceneContextPointer RenderContextPointer World).
Abbreviation RunIO := (@RunIO SceneContextPointer RenderContextPointer World).

Implicit Types (h : gmap positive (Varying.Model den)) (w : World).
Implicit Types (sc : SceneContextPointer) (rc : RenderContextPointer).
Implicit Types
  (c : @Job.Concept Ty den SceneContextPointer RenderContextPointer World)
  (j : @Job.t Ty den SceneContextPointer RenderContextPointer World)
  (st : gmap positive (Varying.Model den) * World).

Lemma cast_Some_Data (T : Ty) (m : Varying.Model den) x :
  Varying.cast den T m = Some x -> Varying.Data den m = T.
Proof. unfold Varying.cast. now destruct (decide (Varying.Data den m = T)). Qed.

Lemma get_Some (T : Ty) (v : Varying.t) h x :
  Varying.get den T v h = Some x ->
  exists l m, Varying._concept v = Some l /\ h !! l = Some m /\
              Varying.Data den m = T.
Proof.
  unfold Varying.get. intros Hget.
  apply bind_Some in Hget as (l & Hl & Hget).
  apply bind_Some in Hget as (m & Hm & Hcast).
  exists l, m. eauto using cast_Some_Data.
Qed.

(** Assigning to a slot through a reference of its own type keeps the type
    of every slot.  The frame property of [run] follows from it. *)
Lemma assign_Data (T : Ty) (v : Varying.t) h l o (x : den T) :
  Varying.get den T v h = Some o -> Varying._concept v = Some l ->
  forall l', Varying.Data den <$> (Varying.assign den T l x h !! l')
             = Varying.Data den <$> (h !! l').
Proof.
  intros Hget Hl l'. apply get_Some in Hget as (l0 & m & Hl0 & Hm & HT).
  assert (l0 = l) as -> by congruence. unfold Varying.assign.
  destruct (decide (l = l')) as [<-|Hne].
  - rewrite lookup_insert_eq, Hm. cbn. now rewrite HT.
  - now rewrite lookup_insert_ne.
Qed.

(** The same for a concept, whatever job holds it. *)
Lemma Concept_run_frame c sc rc h w r :
  Job.Concept_run den c sc rc (h, w) = Some r ->
  (forall l, Varying.Data den <$> (r.2.1 !! l) = Varying.Data den <$> (h !! l))
  /\ (forall l, Varying._concept (Job.Concept_getOutput den c) <> Some l ->
        r.2.1 !! l = h !! l).
Proof.
  destruct c as [T R n d | T Ti R n d input | T To R n d output
                | T Ti To R n d input output].
  - rewrite Concept_run_Model. intros [= <-]. cbn. tauto.
  - rewrite Concept_run_ModelI. intros Hr.
    apply bind_Some in Hr as (i & _ & [= <-]). cbn. tauto.
  - rewrite Concept_run_ModelO. intros Hr.
    apply bind_Some in Hr as (o & Ho & Hr).
    apply bind_Some in Hr as (l & Hl & [= <-]). cbn. split.
    + exact (assign_Data To output h l o _ Ho Hl).
    + intros l' Hne. apply lookup_insert_ne. congruence.
  - rewrite Concept_run_ModelIO. intros Hr.
    apply bind_Some in Hr as (i & _ & Hr).
    apply bind_Some in Hr as (o & Ho & Hr).
    apply bind_Some in Hr as (l & Hl & [= <-]). cbn. split.
    + exact (assign_Data To output h l o _ Ho Hl).
    + intros l' Hne. apply lookup_insert_ne. congruence.
Qed.

(** X9: a job's [run] keeps the set of slots and the payload type of each,
    and writes to no slot but the job's own output slot; a job whose output
    is null, as for the shapes without output, leaves every slot as it
    was. *)
Theorem Job_run_frame j sc rc h w r :
  Job.run den j sc rc (h, w) = Some r ->
  (forall l, Varying.Data den <$> (r.2.1 !! l) = Varying.Data den <$> (h !! l))
  /\ (forall l, (Job.getOutput den j ≫= Varying._concept) <> Some l ->
        r.2.1 !! l = h !! l)
  /\ ((Job.getOutput den j ≫= Varying._concept) = None -> r.2.1 = h).
Proof.
  unfold Job.run, Job.getOutput.
  destruct (Job._concept den j) as [c|]; cbn.
  - intros Hr. apply bind_Some in Hr as (r' & Hrun & [= <-]). cbn.
    destruct (Concept_run_frame c sc rc h w r' Hrun) as [Htypes Hframe].
    split; [exact Htypes|]. split; [exact Hframe|].
    intros Hnull. apply map_eq. intros l. apply Hframe. congruence.
  - intros [= <-]. cbn. tauto.
Qed.

(** *** A job that ran can run again *)

(** Whether [run] is defined depends on the slots, not on the contexts nor
    on the world. *)
Lemma Concept_run_defined c sc rc h w sc' rc' w' :
  is_Some (Job.Concept_run den c sc rc (h, w)) ->
  is_Some (Job.Concept_run den c sc' rc' (h, w')).
Proof.
  destruct c as [T R n d | T Ti R n d input | T To R n d output
                | T Ti To R n d input output].
  - rewrite !Concept_run_Model. eauto.
  - rewrite !Concept_run_ModelI.
    destruct (Varying.get den Ti input h); cbn; [eauto | exact id].
  - rewrite !Concept_run_ModelO.
    destruct (Varying.get den To output h); cbn; [|exact id].
    destruct (Varying._concept output); cbn; [eauto | exact id].
  - rewrite !Concept_run_ModelIO.
    destruct (Varying.get den Ti input h); cbn; [|exact id].
    destruct (Varying.get den To output h); cbn; [|exact id].
    destruct (Varying._concept output); cbn; [eauto | exact id].
Qed.

(** A slot read at its type stays readable at that type when a slot is
    assigned through a reference of the assigned slot's type. *)
Lemma get_assign_is_Some (T To : Ty) (v output : Varying.t) h l o (x : den To) :
  Varying.get den To output h = Some o -> Varying._concept output = Some l ->
  is_Some (Varying.get den T v h) ->
  is_Some (Varying.get den T v (Varying.assign den To l x h)).
Proof.
  intros Ho Hl [i Hi].
  destruct (decide (Varying._concept v = Some l)) as [Hv|Hv].
  - apply get_Some in Ho as (l1 & m1 & Hl1 & Hm1 & HT1).
    apply get_Some in Hi as (l2 & m2 & Hl2 & Hm2 & HT2).
    assert (T = To) as -> by congruence.
    rewrite (get_assign den To v l x h Hv). eauto.
  - rewrite (get_assign_ne den To T v l x h Hv). eauto.
Qed.

Lemma Concept_run_again c sc rc h w r sc' rc' w' :
  Job.Concept_run den c sc rc (h, w) = Some r ->
  is_Some (Job.Concept_run den r.1 sc' rc' (r.2.1, w')).
Proof.
  destruct c as [T R n d | T Ti R n d input | T To R n d output
                | T Ti To R n d input output].
  - rewrite Concept_run_Model. intros [= <-]. cbn [fst snd].
    rewrite Concept_run_Model. eauto.
  - rewrite Concept_run_ModelI. intros Hr.
    apply bind_Some in Hr as (i & Hi & [= <-]). cbn [fst snd].
    rewrite Concept_run_ModelI, Hi. cbn. eauto.
  - rewrite Concept_run_ModelO. intros Hr.
    apply bind_Some in Hr as (o & Ho & Hr).
    apply bind_Some in Hr as (l & Hl & [= <-]). cbn [fst snd].
    rewrite Concept_run_ModelO.
    fold (Varying.assign den To l (runO d sc rc o w).1.2 h).
    rewrite (get_assign den To output l _ h Hl), Hl. cbn. eauto.
  - rewrite Concept_run_ModelIO. intros Hr.
    apply bind_Some in Hr as (i & Hi & Hr).
    apply bind_Some in Hr as (o & Ho & Hr).
    apply bind_Some in Hr as (l & Hl & [= <-]). cbn [fst snd].
    rewrite Concept_run_ModelIO.
    fold (Varying.assign den To l (runIO d sc rc i o w).1.2 h).
    destruct (get_assign_is_Some Ti To input output h l o
                (runIO d sc rc i o w).1.2 Ho Hl (ex_intro _ i Hi)) as [i' Hi'].
    rewrite Hi', (get_assign den To output l _ h Hl), Hl. cbn. eauto.
Qed.

(** X10: a job whose [run] is defined once has it defined in every later
    frame, whatever the contexts and the world: [run] never leaves a slot
    that the job reads or writes unreadable. *)
Theorem Job_runs_defined frames : forall j sc rc h w r,
  Job.run den j sc rc (h, w) = Some r ->
  forall w', is_Some (Job.runs den j frames (h, w')).
Proof.
  induction frames as [|[sc' rc'] frames IH]; intros j sc rc h w r Hr w'.
  - cbn. eauto.
  - cbn. unfold Job.run in Hr |- *.
    destruct (Job._concept den j) as [c|] eqn:Hc.
    + apply bind_Some in Hr as (r0 & Hrun & _).
      destruct (Concept_run_defined c sc rc h w sc' rc' w'
                  (ex_intro _ r0 Hrun)) as [r1 Hrun1].
      rewrite Hrun1. cbn [mbind option_bind].
      destruct (Concept_run_again c sc' rc' h w' r1 sc' rc' r1.2.2 Hrun1)
        as [r2 Hrun2].
      destruct r1 as [c1 [h1 w1]]. cbn [fst snd] in *.
      apply (IH (Job.mk den (Some c1)) sc' rc' h1 w1
                (Job.mk den (Some r2.1), r2.2)).
      unfold Job.run. cbn [Job._concept]. now rewrite Hrun2.
    + cbn. apply (IH j sc' rc' h w' (j, (h, w'))).
      unfold Job.run. now rewrite Hc.
Qed.

(** *** Jobs constructed without an input *)

(** X11: an input-only job constructed from its data alone has a null input,
    and its [run], as constructed, is undefined; so is the [run] of an
    input+output job constructed from data and output, until [setInput]
    gives it a varying that holds an input in another slot than the job's
    output: then the stage is run with that input and with the output the
    job was constructed from. *)
Theorem jobs_constructed_without_input :
  (forall T (I : Ty) (R : RunI T (den I)) (data : T) sc rc st,
     Job.Concept_run den (Job.ModelI_of_data den T I data) sc rc st = None)
  /\ (forall T (I O : Ty) (R : RunIO T (den I) (den O)) (data : T)
             (output : den O) h sc rc w,
        let r := Job.ModelIO_of_data_output den T I O data output h in
        Job.Concept_run den r.1 sc rc (r.2, w) = None /\
        forall input i,
          Varying.get den I input r.2 = Some i ->
          Varying._concept input
          <> Varying._concept (Job.Concept_getOutput den r.1) ->
          exists c r',
            Job.ModelIO_setInput den input r.1 = Some c /\
            Job.Concept_run den c sc rc (r.2, w) = Some r' /\
            Varying.get den O (Job.Concept_getOutput den r'.1) r'.2.1
            = Some (runIO data sc rc i output w).1.2 /\
            r'.2.2 = (runIO data sc rc i output w).2).
Proof.
  split.
  - intros T I R data sc rc [h w]. unfold Job.ModelI_of_data.
    now rewrite Concept_run_ModelI.
  - intros T I O R data output h sc rc w r. subst r.
    unfold Job.ModelIO_of_data_output.
    pose proof (get_of_data den O output h) as Hout.
    destruct (Varying.of_data den O output h) as [out h'] eqn:Hnew.
    cbn [fst snd] in *. split; [now rewrite Concept_run_ModelIO|].
    intros input i Hi _. eexists _, _. split; [reflexivity|].
    rewrite Concept_run_ModelIO, Hi, Hout. cbn.
    assert (Varying._concept out = Some (fresh (dom h))) as Hl
      by (unfold Varying.of_data in Hnew; now injection Hnew as <- _).
    rewrite Hl. cbn. split; [reflexivity|]. split; [|reflexivity].
    cbn [fst snd Job.Concept_getOutput].
    fold (Varying.assign den O (fresh (dom h))
            (runIO data sc rc i output w).1.2 h').
    now apply get_assign.
Qed.

(** *** Jobs constructed from their input *)

(** X12: an input+output job constructed from an input varying gets an
    output slot of its own: it reads the given input, its output is not the
    input slot, and its [run] is defined, writes the stage's result to the
    output and leaves the input as it was. *)
Theorem ModelIO_of_input_keeps_input T (I O : Ty) (R : RunIO T (den I) (den O))
    (D : DefaultCtor T) (input : Varying.t) h (i : den I) sc rc w :
  Varying.get den I input h = Some i ->
  let r := Job.ModelIO_of_input den T I O input h in
  Varying.get den I (Job.Concept_getInput den r.1) r.2 = Some i
  /\ Varying._concept (Job.Concept_getOutput den r.1)
     <> Varying._concept (Job.Concept_getInput den r.1)
  /\ exists r',
       Job.Concept_run den r.1 sc rc (r.2, w) = Some r' /\
       Varying.get den I (Job.Concept_getInput den r'.1) r'.2.1 = Some i /\
       Varying.get den O (Job.Concept_getOutput den r'.1) r'.2.1
       = Some (runIO default_ctor sc rc i default_ctor w).1.2.
Proof.
  intros Hi r. subst r. unfold Job.ModelIO_of_input, Varying.of_data.
  cbn [fst snd Job.Concept_getInput Job.Concept_getOutput Varying.copy
       Varying._concept].
  destruct (get_Some I input h i Hi) as (l & m & Hl & Hm & _).
  assert (l <> fresh (dom h)) as Hfresh.
  { intros ->. apply (is_fresh (dom h)). apply elem_of_dom. eauto. }
  set (h' := <[fresh (dom h) := Varying.mkModel den O default_ctor]> h).
  assert (Varying.get den I (Varying.copy input) h' = Some i) as Hi'.
  { rewrite <- Hi. unfold h'.
    apply (get_assign_ne den O I (Varying.copy input) (fresh (dom h))
             default_ctor h).
    cbn. congruence. }
  split; [exact Hi'|]. split; [rewrite Hl; congruence|].
  eexists. rewrite Concept_run_ModelIO.
  rewrite Hi'. cbn [mbind option_bind].
  assert (Varying.get den O
            {| Varying._concept := Some (fresh (dom h));
               Varying._consumerJobs := [] |} h' = Some default_ctor) as Ho
    by (apply (get_assign den O); reflexivity).
  rewrite Ho. cbn [mbind option_bind Varying._concept].
  split; [reflexivity|].
  cbn [fst snd Job.Concept_getInput Job.Concept_getOutput Varying.copy
       Varying._concept].
  split.
  - rewrite <- Hi'.
    apply (get_assign_ne den O I (Varying.copy input) (fresh (dom h)) _ h').
    cbn. congruence.
  - apply (get_assign den O). reflexivity.
Qed.


End JobFrameFacts.

(* ===================================================================== *)
(** * Worked instances for the job graph                                  *)
(* ===================================================================== *)

Section SampleJobFacts.
Import model render render.Sample.

(** The fetch job writes its own slot 1 and leaves slot 2 alone. *)
Lemma Job_run_frame_witness :
  (<[1%positive := Varying.mkModel den TList [10; 11]]>
     ({[1%positive := Varying.mkModel den TList [];
        2%positive := Varying.mkModel den TInt 5]}
        : gmap positive (Varying.Model den))) !! 2%positive
  = ({[1%positive := Varying.mkModel den TList [];
       2%positive := Varying.mkModel den TInt 5]}
       : gmap positive (Varying.Model den)) !! 2%positive.
Proof.
  refine (proj1 (proj2 (Job_run_frame den
    (Job.mk den (Some (Job.ModelO den Z TList fetch EmptyString 10
                         (Varying.mk (Some 1%positive) []))))
    tt tt
    {[1%positive := Varying.mkModel den TList [];
      2%positive := Varying.mkModel den TInt 5]}
    [1]
    (Job.mk den (Some (Job.ModelO den Z TList fetch EmptyString 12
                         (Varying.mk (Some 1%positive) []))),
     (<[1%positive := Varying.mkModel den TList [10; 11]]>
        {[1%positive := Varying.mkModel den TList [];
          2%positive := Varying.mkModel den TInt 5]},
      [1]))
    _)) 2%positive _).
  - reflexivity.
  - discriminate.
Defined.

(** The fetch job, having run once, runs for two more frames. *)
Lemma Job_runs_defined_witness :
  is_Some
    (Job.runs den
       (Job.mk den (Some (Job.ModelO den Z TList fetch EmptyString 10
                            (Varying.mk (Some 1%positive) []))))
       [(tt, tt); (tt, tt)]
       ({[1%positive := Varying.mkModel den TList []]}, [])).
Proof.
  refine (Job_runs_defined den [(tt, tt); (tt, tt)]
    (Job.mk den (Some (Job.ModelO den Z TList fetch EmptyString 10
                         (Varying.mk (Some 1%positive) []))))
    tt tt {[1%positive := Varying.mkModel den TList []]} [1]
    (Job.mk den (Some (Job.ModelO den Z TList fetch EmptyString 12
                         (Varying.mk (Some 1%positive) []))),
     (<[1%positive := Varying.mkModel den TList [10; 11]]>
        {[1%positive := Varying.mkModel den TList []]},
      [1]))
    _ []).
  reflexivity.
Defined.

(** A cull job constructed from its threshold and an empty output cannot
    run; once its input is set to the slot holding [2; 5] it keeps 5. *)
Lemma jobs_constructed_without_input_witness :
  exists c r',
    Job.ModelIO_setInput den (Varying.mk (Some 1%positive) [])
      (Job.ModelIO_of_data_output den Z TList TList (R := cull) 3 []
         {[1%positive := Varying.mkModel den TList [2; 5]]}).1
    = Some c /\
    Job.Concept_run den c tt tt
      ((Job.ModelIO_of_data_output den Z TList TList (R := cull) 3 []
          {[1%positive := Varying.mkModel den TList [2; 5]]}).2, [])
    = Some r' /\
    Varying.get den TList (Job.Concept_getOutput den r'.1) r'.2.1 = Some [5].
Proof.
  assert (Varying.get den TList (Varying.mk (Some 1%positive) [])
            (Job.ModelIO_of_data_output den Z TList TList (R := cull)
               (World := list Z) 3 []
               {[1%positive := Varying.mkModel den TList [2; 5]]}).2
          = Some [2; 5]) as Hinput by reflexivity.
  assert (Varying._concept (Varying.mk (Some 1%positive) [])
          <> Varying._concept
               (Job.Concept_getOutput den
                  (Job.ModelIO_of_data_output den Z TList TList (R := cull)
                     (World := list Z) 3 []
                     {[1%positive := Varying.mkModel den TList [2; 5]]}).1))
    as Hslots by (vm_compute; discriminate).
  destruct (proj2 (proj2 (jobs_constructed_without_input den)
              Z TList TList cull 3 []
              {[1%positive := Varying.mkModel den TList [2; 5]]} tt tt [])
              (Varying.mk (Some 1%positive) []) [2; 5] Hinput Hslots)
    as (c & r' & Hset & Hrun & Hout & _).
  exists c, r'. split; [exact Hset|]. split; [exact Hrun | exact Hout].
Defined.

(** A cull job constructed from the slot holding [2; 5] has that slot as
    input and another slot as output. *)
Lemma ModelIO_of_input_keeps_input_witness :
  Varying.get den TList
    (Job.Concept_getInput den
       (Job.ModelIO_of_input den Z TList TList (R := cull) (World := list Z)
          (Varying.mk (Some 1%positive) [])
          {[1%positive := Varying.mkModel den TList [2; 5]]}).1)
    (Job.ModelIO_of_input den Z TList TList (R := cull) (World := list Z)
       (Varying.mk (Some 1%positive) [])
       {[1%positive := Varying.mkModel den TList [2; 5]]}).2
  = Some [2; 5].
Proof.
  apply (ModelIO_of_input_keeps_input den Z TList TList cull Z_default
           (Varying.mk (Some 1%positive) [])
           {[1%positive := Varying.mkModel den TList [2; 5]]} [2; 5] tt tt []).
  reflexivity.
Defined.

End SampleJobFacts.

(* ===================================================================== *)
(** * Looking up buckets                                                  *)
(* ===================================================================== *)

Section BucketLookupFacts.
Import model render.
Import ItemMaterialBucketMap.
Context {ItemID : Type}.

Implicit Types (m : list (MaterialFilter.t * list ItemID)).

(** Two filters are the same map key exactly when they are equal. *)
Lemma equiv_eq f g : equiv f g = true <-> f = g.
Proof.
  unfold equiv. rewrite andb_true_iff, !negb_true_iff. split.
  - intros [Hfg Hgf]. now apply Less_incomparable_eq.
  - intros ->. split; apply Less_irrefl.
Qed.

Lemma equiv_ne f g : f <> g -> equiv f g = false.
Proof. intros Hne. apply not_true_iff_false. now rewrite equiv_eq. Qed.

Lemma find_above f m :
  Forall (fun e => MaterialFilter.Less f e.1 = true) m -> find f m = None.
Proof.
  induction 1 as [|[g w] m Hg _ IH]; [reflexivity|]. cbn in *.
  unfold equiv. now rewrite Hg.
Qed.

Lemma find_std_insert_eq f ids m :
  StronglySorted (fun a b => value_comp a b = true) m ->
  find f (std_insert f ids m) = Some (default ids (find f m)).
Proof.
  induction 1 as [|[g w] m Hm IH Hg]; cbn.
  - now rewrite (proj2 (equiv_eq f f) eq_refl).
  - destruct (MaterialFilter.Less f g) eqn:Hfg.
    + cbn. rewrite (proj2 (equiv_eq f f) eq_refl).
      assert (equiv f g = false) as -> by (unfold equiv; now rewrite Hfg).
      rewrite find_above; [reflexivity|].
      eapply Forall_impl; [exact Hg|]. intros e He. unfold value_comp in He.
      cbn in He. eapply Less_trans; eassumption.
    + destruct (MaterialFilter.Less g f) eqn:Hgf; cbn.
      * assert (equiv f g = false) as ->
          by (unfold equiv; rewrite Hgf; apply andb_false_r).
        exact IH.
      * assert (equiv f g = true) as ->
          by (unfold equiv; now rewrite Hfg, Hgf).
        reflexivity.
Qed.

Lemma find_std_insert_ne f g ids m :
  g <> f -> find g (std_insert f ids m) = find g m.
Proof.
  intros Hne. induction m as [|[k w] m IH]; cbn.
  - now rewrite (equiv_ne g f Hne).
  - destruct (MaterialFilter.Less f k); cbn.
    + now rewrite (equiv_ne g f Hne).
    + destruct (MaterialFilter.Less k f); cbn; [now rewrite IH | reflexivity].
Qed.

Lemma find_erase_eq f m : find f (erase f m) = None.
Proof.
  unfold erase. induction m as [|[k w] m IH]; [reflexivity|].
  rewrite filter_cons. cbn [fst].
  destruct (decide (negb (equiv f k))) as [Hk|_]; [|exact IH].
  cbn. destruct (equiv f k); [contradiction | exact IH].
Qed.

Lemma find_erase_ne f g m : g <> f -> find g (erase f m) = find g m.
Proof.
  intros Hne. unfold erase. induction m as [|[k w] m IH]; [reflexivity|].
  rewrite filter_cons. cbn [fst].
  destruct (decide (negb (equiv f k))) as [Hk|Hk].
  - cbn. now rewrite IH.
  - cbn. rewrite IH.
    destruct (equiv f k) eqn:Hfk; [|exfalso; now apply Hk].
    apply equiv_eq in Hfk as <-. now rewrite (equiv_ne g f Hne).
Qed.

(** X13: a bucket is found under the filter it was inserted with: [insert]
    under a filter the map lacks adds the given bucket, under a filter it
    has leaves the bucket there, and [operator[]] so yields the bucket there
    or an empty one; [erase] removes the bucket of its filter; neither
    touches the bucket of any other filter. *)
Theorem bucket_insert_find_erase m f (ids : list ItemID) :
  reachable m ->
  find f (std_insert f ids m) = Some (default ids (find f m))
  /\ find f (subscript f m) = Some (default [] (find f m))
  /\ find f (erase f m) = None
  /\ (forall g, g <> f ->
        find g (std_insert f ids m) = find g m /\
        find g (erase f m) = find g m).
Proof.
  intros Hm. apply reachable_ordered in Hm.
  split; [now apply find_std_insert_eq|].
  split; [now apply find_std_insert_eq|].
  split; [apply find_erase_eq|].
  intros g Hne. split; [now apply find_std_insert_ne | now apply find_erase_ne].
Qed.

End BucketLookupFacts.

Section BucketLookupInstances.
Import model render.
Import ItemMaterialBucketMap.

(** A second insert under a filter keeps the first bucket. *)
Lemma bucket_insert_find_erase_witness :
  find (MaterialFilter.mk 2 18)
    (std_insert (MaterialFilter.mk 2 18) [7%nat]
       (std_insert (MaterialFilter.mk 2 18) [3%nat] new))
  = Some [3%nat].
Proof.
  refine (proj1 (bucket_insert_find_erase
                   (std_insert (MaterialFilter.mk 2 18) [3%nat] new)
                   (MaterialFilter.mk 2 18) [7%nat] _)).
  apply reachable_insert, reachable_new.
Defined.

End BucketLookupInstances.

(* ===================================================================== *)
(** * The material properties of [ObjectMotionState]                      *)
(* ===================================================================== *)

Section MotionStateFacts.
Import physics.
Import ObjectMotionState.

Lemma SFltb_SFleb a b : SFltb a b = true -> SFleb a b = true.
Proof. unfold SFltb, SFleb. now destruct (SFcompare a b) as [[]|]. Qed.

Lemma SFleb_not_nan_l a b : SFleb a b = true -> a <> S754_nan.
Proof. intros Hle ->. discriminate Hle. Qed.

Lemma fabsf_opp x : fabsf (SFopp x) = fabsf x.
Proof. now destruct x. Qed.

(** The three values a setter can store. *)
Lemma clamp_cases lo hi x :
  SFltb lo hi = true ->
  let y := btMax (btMin (fabsf x) hi) lo in
  (y = fabsf x /\ SFltb (fabsf x) hi = true /\ SFltb lo (fabsf x) = true)
  \/ (y = lo /\ SFltb (fabsf x) hi = true /\ SFltb lo (fabsf x) = false)
  \/ (y = hi /\ SFltb (fabsf x) hi = false).
Proof.
  intros Hlh y. subst y. unfold btMax, btMin.
  destruct (SFltb (fabsf x) hi) eqn:Hxh.
  - destruct (SFltb lo (fabsf x)) eqn:Hlx; [left | right; left]; tauto.
  - right; right. now rewrite Hlh.
Qed.

Lemma clamp_between lo hi x :
  SFltb lo hi = true -> SFleb lo lo = true -> SFleb hi hi = true ->
  between lo hi (btMax (btMin (fabsf x) hi) lo) = true.
Proof.
  intros Hlh Hll Hhh. unfold between.
  destruct (clamp_cases lo hi x Hlh) as [(-> & Hxh & Hlx)|[(-> & _)|(-> & _)]].
  - now rewrite (SFltb_SFleb _ _ Hxh), (SFltb_SFleb _ _ Hlx).
  - now rewrite Hll, (SFltb_SFleb _ _ Hlh).
  - now rewrite Hhh, (SFltb_SFleb _ _ Hlh).
Qed.

Lemma call_in_ranges op s : in_ranges s = true -> in_ranges (call op s) = true.
Proof.
  unfold in_ranges. rewrite !andb_true_iff.
  intros (((((Hd & Hv) & Hf) & Hr) & Hl) & Ha).
  destruct op; cbn [call setDensity setFriction setRestitution
                    setLinearDamping setAngularDamping setVolume
                    _density _volume _friction _restitution
                    _linearDamping _angularDamping];
    repeat split; try assumption; apply clamp_between; reflexivity.
Qed.

(** X14: from construction on and after every sequence of setter calls,
    with any arguments, NaN and the infinities included, each of the six
    material properties lies within its range: density in [200, 20000],
    volume in [0.001f, 1000000], friction in [0, 10], restitution and both
    dampings in [0, 1]; in particular none of them is NaN. *)
Theorem motion_state_in_ranges :
  in_ranges new = true
  /\ (forall ops s, in_ranges s = true -> in_ranges (calls ops s) = true)
  /\ (forall s, in_ranges s = true ->
        _density s <> S754_nan /\ _volume s <> S754_nan /\
        _friction s <> S754_nan /\ _restitution s <> S754_nan /\
        _linearDamping s <> S754_nan /\ _angularDamping s <> S754_nan).
Proof.
  split; [reflexivity|]. split.
  - intros ops. induction ops as [|op ops IH]; intros s Hs; [exact Hs|].
    cbn. apply IH. now apply call_in_ranges.
  - intros s. unfold in_ranges, between. rewrite !andb_true_iff.
    intros ((((([_ Hd] & [_ Hv]) & [_ Hf]) & [_ Hr]) & [_ Hl]) & [_ Ha]).
    split; [exact (SFleb_not_nan_l _ _ Hd)|].
    split; [exact (SFleb_not_nan_l _ _ Hv)|].
    split; [exact (SFleb_not_nan_l _ _ Hf)|].
    split; [exact (SFleb_not_nan_l _ _ Hr)|].
    split; [exact (SFleb_not_nan_l _ _ Hl) | exact (SFleb_not_nan_l _ _ Ha)].
Qed.

Lemma motion_state_in_ranges_witness :
  in_ranges
    (calls [SetDensity S754_nan; SetVolume (S754_infinity true);
            SetFriction (S754_zero true)] new)
  = true.
Proof.
  apply (proj1 (proj2 motion_state_in_ranges)
           [SetDensity S754_nan; SetVolume (S754_infinity true);
            SetFriction (S754_zero true)] new).
  reflexivity.
Defined.

(** X15: a setter ignores the sign of its argument, and an argument whose
    absolute value is not below the upper bound of the property, which
    includes NaN and both infinities, stores the upper bound. *)
Theorem motion_state_setters_sanitise (x : spec_float) (s : t) :
  (setDensity (SFopp x) s = setDensity x s
   /\ setVolume (SFopp x) s = setVolume x s
   /\ setFriction (SFopp x) s = setFriction x s
   /\ setRestitution (SFopp x) s = setRestitution x s
   /\ setLinearDamping (SFopp x) s = setLinearDamping x s
   /\ setAngularDamping (SFopp x) s = setAngularDamping x s)
  /\ (SFltb (fabsf x) MAX_DENSITY = false ->
      _density (setDensity x s) = MAX_DENSITY)
  /\ (SFltb (fabsf x) MAX_VOLUME = false ->
      _volume (setVolume x s) = MAX_VOLUME)
  /\ (SFltb (fabsf x) MAX_FRICTION = false ->
      _friction (setFriction x s) = MAX_FRICTION)
  /\ (SFltb (fabsf x) f1 = false ->
      _restitution (setRestitution x s) = f1
      /\ _linearDamping (setLinearDamping x s) = f1
      /\ _angularDamping (setAngularDamping x s) = f1)
  /\ (x = S754_nan \/ x = S754_infinity false \/ x = S754_infinity true ->
      SFltb (fabsf x) MAX_DENSITY = false /\ SFltb (fabsf x) MAX_VOLUME = false
      /\ SFltb (fabsf x) MAX_FRICTION = false /\ SFltb (fabsf x) f1 = false).
Proof.
  split.
  { unfold setDensity, setVolume, setFriction, setRestitution,
      setLinearDamping, setAngularDamping.
    rewrite fabsf_opp. repeat split. }
  unfold setDensity, setVolume, setFriction, setRestitution,
    setLinearDamping, setAngularDamping, btMax, btMin.
  cbn [_density _volume _friction _restitution _linearDamping _angularDamping].
  split; [now intros ->|]. split; [now intros ->|]. split; [now intros ->|].
  split; [now intros ->|].
  intros [->|[->| ->]]; repeat split.
Qed.

Lemma motion_state_setters_sanitise_witness :
  _density (setDensity S754_nan new) = MAX_DENSITY.
Proof.
  apply (motion_state_setters_sanitise S754_nan new). reflexivity.
Defined.

End MotionStateFacts.
